(** * crypty-virus-detector: a model of [find_sig.cpp]

    The development follows the source file:

    - the byte streams the program reads ([std::ifstream] over a file),
    - the classifier [isELFFile] and the buffered matcher
      [containsSignatureBuffered], which records the allocations, copies
      and reads it performs,
    - the scan unit that [main] submits for every file,
    - [ThreadPool] and the end of [main] as a transition system: a state
      holds the program counter of the main thread and of every worker, the
      queue, the flag [stop], the owner of [queueMutex] and the output
      statements executed so far; an execution is a schedule, a list of
      threads that take one step each.

    Conventions of the model:

    - Sizes ([size_t]) are [nat]: every size in the program is the length
      of a vector held in memory, or the sum of two such lengths and a
      constant below 2^11, far from the 64-bit wrap-around.  Iterators are
      offsets from [begin()], in [Z] where they may leave the container.
    - A file is the bytes a stream over it can read; a read error is a
      position in the file at which reading fails.  The streams are those
      of libstdc++, the library of the build the source prescribes
      ([g++]): a read that meets the error throws inside the stream buffer;
      [istream::read] catches the exception, sets badbit and counts no
      byte, and [istreambuf_iterator] lets it through.  A file is opened
      twice by its unit and may look different the second time.
    - A statement sequence under a [lock_guard] that touches only the
      queue is one step, enabled when the mutex is free; the critical
      section of a worker is split where it reads [stop], which the
      destructor writes without the mutex.
    - The call of a task is one step.  The output of the model is the
      list of the output statements executed, those on [std::cout] and
      those on [std::cerr] together; a scan unit executes at most one,
      under the output mutex.  Line 229 is executed without that mutex:
      on [std::cout] its characters can fall between the parts of the line
      of a unit.  The model does not describe characters, only which
      statements were executed.
    - A blocked worker may wake up spuriously. *)

From Stdlib Require Import Strings.Byte.
From stdpp Require Import base list numbers strings.

Local Open Scope nat_scope.

(** ** Results of C++ computations *)

Inductive exn :=
| StdException (what : string)   (* an exception derived from std::exception *)
| OtherException.                (* any other thrown object *)

Inductive result (A : Type) :=
| Ok (a : A)          (* normal return *)
| Throw (e : exn)     (* an exception propagates to the caller *)
| Undefined           (* undefined behaviour: an iterator outside its container *)
| OutOfFuel.          (* the model ran out of fuel *)

Arguments Ok {A} a.
Arguments Throw {A} e.
Arguments Undefined {A}.
Arguments OutOfFuel {A}.

(** ** Files and input streams *)

(** What opening and reading a path yields.  [fault = Some n] is a device
    error at byte [n]: the bytes in front of it can be read, and a read that
    asks for byte [n] fails.  An error at or behind the end of the file is
    never met. *)
Inductive source :=
| Unopenable
| Readable (data : list byte) (fault : option nat).

(** The bytes of the file that can be read. *)
Definition deliverable (data : list byte) (fault : option nat) : list byte :=
  match fault with
  | None => data
  | Some n => take n data
  end.

(** The device error lies inside the file. *)
Definition breaks (data : list byte) (fault : option nat) : bool :=
  match fault with
  | None => false
  | Some n => n <? length data
  end.

Definition readable_bytes (src : source) : option (list byte) :=
  match src with
  | Unopenable => None
  | Readable data fault => Some (deliverable data fault)
  end.

(** [std::ifstream]: the bytes that can still be read, whether a device
    error and not the end of the file follows them, and [fail()] (failbit
    or badbit), which is what [operator bool] tests. *)
Record ifstream := { pending : list byte; broken : bool; failed : bool }.

(** [std::ifstream file(path, std::ios::binary)] *)
Definition ifstream_open (src : source) : ifstream :=
  match src with
  | Unopenable => {| pending := []; broken := false; failed := true |}
  | Readable data fault =>
      {| pending := deliverable data fault; broken := breaks data fault; failed := false |}
  end.

(** [file.read(dst, n)]; the length of the first component is
    [file.gcount()].  A read that reaches the end of the file delivers what
    is left and sets eofbit and failbit.  A read that meets the device
    error throws inside [sgetn]; [istream::read] catches the exception and
    sets badbit, and [gcount()] keeps the 0 it was given at the start of the
    call: the bytes stored at [dst] before the error are not counted. *)
Definition ifstream_read (f : ifstream) (n : nat) : list byte * ifstream :=
  if failed f then ([], f)
  else
    let got := take n (pending f) in
    if (length got <? n) && broken f then
      ([], {| pending := []; broken := true; failed := true |})
    else
      (got, {| pending := drop n (pending f); broken := broken f;
               failed := length got <? n |}).

(** ** The classifier *)

Definition isELFFile (src : source) : bool :=
  let file := ifstream_open src in
  if failed file then false
  else
    let '(header, _) := ifstream_read file 4 in
    if length header <? 4 then false
    else
      match header with
      | h0 :: h1 :: h2 :: h3 :: _ =>
          Byte.eqb h0 x7f && Byte.eqb h1 "E" && Byte.eqb h2 "L" && Byte.eqb h3 "F"
      | _ => false
      end.

(** ** The matcher *)

Definition MIN_BUFFER_SIZE : nat := 4096.
Definition EXTRA_BUFFER : nat := 1024.

(** [std::equal] of the pattern against the front of the text. *)
Fixpoint matches_here (pat text : list byte) : bool :=
  match pat, text with
  | [], _ => true
  | _ :: _, [] => false
  | p :: pat', t :: text' => Byte.eqb p t && matches_here pat' text'
  end.

(** [std::search(first, last, s_first, s_last)] as an offset from [first]:
    the first position where the pattern matches, [last - first] if there is
    none. *)
Fixpoint search (text pat : list byte) : nat :=
  match text with
  | [] => 0
  | _ :: text' => if matches_here pat text then 0 else S (search text' pat)
  end.

(** The three ways through the carry-over [if]/[else if] of the loop. *)
Inductive carry_branch :=
| CarryTail      (* bytesRead >= OVERLAP *)
| CarryPartial   (* 0 < bytesRead < OVERLAP *)
| CarryNone.     (* neither: no copy *)

(** What one call does to memory and to the stream. *)
Inductive event :=
| EvAlloc (size : nat)                       (* std::vector<uint8_t> buffer(size) *)
| EvCarry (br : carry_branch) (bytesRead : nat)
| EvCopy (first last dst : Z)                (* std::copy(begin+first, begin+last, begin+dst) *)
| EvRead (offset request : nat).             (* file.read(buffer.data()+offset, request) *)

(** The iterators of a [std::copy] within a container of [size] elements
    are valid, and the destination is not inside the source range. *)
Definition copy_in_bounds (size : nat) (first last dst : Z) : bool :=
  (0 <=? first)%Z && (first <=? last)%Z && (last <=? Z.of_nat size)%Z
  && (0 <=? dst)%Z && (dst + (last - first) <=? Z.of_nat size)%Z
  && ((dst <? first)%Z || (last <=? dst)%Z).

(** The buffer with [data] stored from [offset] on. *)
Definition write_at (buf : list byte) (offset : nat) (data : list byte) : list byte :=
  take offset buf ++ data ++ drop (offset + length data) buf.

(** [std::copy(begin+first, begin+last, begin+dst)] inside one container. *)
Definition std_copy (buf : list byte) (first last dst : Z) : result (list byte) :=
  if copy_in_bounds (length buf) first last dst then
    Ok (write_at buf (Z.to_nat dst)
          (take (Z.to_nat (last - first)) (drop (Z.to_nat first) buf)))
  else Undefined.

Definition select_carry (OVERLAP bytesRead : nat) : carry_branch :=
  if OVERLAP <=? bytesRead then CarryTail
  else if 0 <? bytesRead then CarryPartial
  else CarryNone.

(** Lines 151-155: the carry-over at the head of an iteration. *)
Definition carry_over (OVERLAP : nat) (buffer : list byte) (bytesRead : nat)
  : result (list byte) * list event :=
  let size := Z.of_nat (length buffer) in
  match select_carry OVERLAP bytesRead with
  | CarryTail =>
      let first := (size - Z.of_nat OVERLAP)%Z in
      (std_copy buffer first size 0, [EvCarry CarryTail bytesRead; EvCopy first size 0])
  | CarryPartial =>
      let first := (Z.of_nat bytesRead - Z.of_nat OVERLAP)%Z in
      let last := Z.of_nat bytesRead in
      (std_copy buffer first last 0, [EvCarry CarryPartial bytesRead; EvCopy first last 0])
  | CarryNone => (Ok buffer, [EvCarry CarryNone bytesRead])
  end.

Record loop_state := { buffer : list byte; bytesRead : nat; file : ifstream }.

Inductive iteration :=
| Return (found : bool)
| Continue (st : loop_state)
| Fault.

(** Lines 151-168: one pass through the loop body.  After a read that
    failed the buffer may hold bytes behind the carried ones that the model
    does not show; they lie outside the window of the search, and the pass
    is the last. *)
Definition loop_body (signature : list byte) (buffer_size : nat) (st : loop_state)
  : iteration * list event :=
  let OVERLAP := length signature - 1 in
  match carry_over OVERLAP (buffer st) (bytesRead st) with
  | (Ok carried, evs) =>
      let '(got, file') := ifstream_read (file st) buffer_size in
      let filled := write_at carried OVERLAP got in
      let bytesRead' := length got in
      let totalBytes := bytesRead' + OVERLAP in
      let it := search (take totalBytes filled) signature in
      let evs' := evs ++ [EvRead OVERLAP buffer_size] in
      if negb (it =? totalBytes) then (Return true, evs')
      else if bytesRead' <? buffer_size then (Return false, evs')
      else (Continue {| buffer := filled; bytesRead := bytesRead'; file := file' |}, evs')
  | (_, evs) => (Fault, evs)
  end.

(** Lines 150-171: [while (file) { ... } return false;]. *)
Fixpoint scan_loop (fuel : nat) (signature : list byte) (buffer_size : nat)
    (st : loop_state) : result bool * list event :=
  match fuel with
  | 0 => (OutOfFuel, [])
  | S fuel' =>
      if failed (file st) then (Ok false, [])
      else
        match loop_body signature buffer_size st with
        | (Return found, evs) => (Ok found, evs)
        | (Fault, evs) => (Undefined, evs)
        | (Continue st', evs) =>
            let '(r, evs') := scan_loop fuel' signature buffer_size st' in
            (r, evs ++ evs')
        end
  end.

Definition chunk_size (signature : list byte) : nat :=
  Nat.max MIN_BUFFER_SIZE (length signature + EXTRA_BUFFER).

(** Lines 137-172.  Every pass that continues has consumed a full chunk of
    the stream, so one more pass than there are pending bytes is enough. *)
Definition containsSignatureBuffered (src : source) (signature : list byte)
  : result bool * list event :=
  match signature with
  | [] => (Ok false, [])
  | _ :: _ =>
      let OVERLAP := length signature - 1 in
      let file := ifstream_open src in
      if failed file then (Ok false, [])
      else
        let buffer_size := chunk_size signature in
        let buffer := replicate (buffer_size + OVERLAP) x00 in
        let '(r, evs) :=
          scan_loop (S (length (pending file))) signature buffer_size
            {| buffer := buffer; bytesRead := 0; file := file |} in
        (r, EvAlloc (buffer_size + OVERLAP) :: evs)
  end.

(** Test data of the repository's test suite. *)
Definition ELF_MAGIC : list byte := [x7f; "E"; "L"; "F"]%byte.
Definition SIGNATURE : list byte := ["c"; "r"; "y"; "p"; "t"; "y"]%byte.

Definition infected_cross_boundary : list byte :=
  ELF_MAGIC ++ replicate (4096 - 3 - 4) ("A"%byte) ++ SIGNATURE
  ++ replicate (2 * 4096 - (4096 - 3) - 6) ("B"%byte).

Definition make_elf_with (content : list byte) (padding : nat) : list byte :=
  ELF_MAGIC ++ replicate padding x00 ++ content.

Definition huge_file : list byte :=
  let data := ELF_MAGIC ++ replicate (10 * 4096 - 4) ("A"%byte) in
  take (5 * 4096) data ++ SIGNATURE ++ drop (5 * 4096) data.

Definition detects (data : list byte) : result bool :=
  fst (containsSignatureBuffered (Readable data None) SIGNATURE).


(** ** Output of the program *)

(** One output statement of the program, on [std::cout] or [std::cerr],
    with the values it inserts. *)
Inductive output :=
| OutUsage (argv0 : string)              (* cerr: Usage: argv0 <root_directory> <signature_file> *)
| OutError (what : string)               (* cerr: Error: what *)
| OutScanStarted                         (* cout: Scanning started... *)
| OutTraverseError (what : string)       (* cerr: Error traversing directory: what *)
| OutInfected (path : string)            (* cout: !!! File path is infected! *)
| OutScanError (path what : string)      (* cerr: Error scanning path: what *)
| OutScanCompleted.                      (* cout: Scan completed. *)

(** ** Units of work *)

Global Instance result_bind : MBind result := λ A B k r,
  match r with
  | Ok a => k a
  | Throw e => Throw e
  | Undefined => Undefined
  | OutOfFuel => OutOfFuel
  end.

(** A [std::function<void()>] as the pool sees it: the output statements it
    executes under the output mutex and how the call ends. *)
Record task := { writes : list output; ending : result unit }.

(** Lines 214-219, the [try] block of the lambda.  The two calls are given
    by their results, so that a callee which throws can be expressed. *)
Definition scan_body (classify contains : result bool) (path : string)
  : result (list output) :=
  eligible ← classify;
  if negb eligible : bool then Ok []
  else
    infected ← contains;
    if infected : bool then Ok [OutInfected path] else Ok [].

(** Lines 212-225, the lambda with its handler for [std::exception]. *)
Definition scan_unit (classify contains : result bool) (path : string) : task :=
  match scan_body classify contains path with
  | Ok lines => {| writes := lines; ending := Ok () |}
  | Throw (StdException what) =>
      {| writes := [OutScanError path what]; ending := Ok () |}
  | Throw OtherException => {| writes := []; ending := Throw OtherException |}
  | Undefined => {| writes := []; ending := Undefined |}
  | OutOfFuel => {| writes := []; ending := OutOfFuel |}
  end.

(** A file is opened twice by its unit, by [isELFFile] and by
    [containsSignatureBuffered]; the two streams need not see the same
    thing (access can be lost in between). *)
Record file_view := { at_classify : source; at_match : source }.

Definition scan_file (view : file_view) (signature : list byte) (path : string) : task :=
  scan_unit (Ok (isELFFile (at_classify view)))
            (fst (containsSignatureBuffered (at_match view) signature))
            path.

(** ** The thread pool *)

(** Where a worker stands in [workerThread]. *)
Inductive worker_pc :=
| WLock                        (* line 92: about to lock queueMutex *)
| WWait                        (* lines 93-95: holds the mutex, tests the wait predicate *)
| WSleep                       (* the predicate was false: about to release the mutex and block *)
| WBlocked                     (* blocked on the condition variable, mutex released *)
| WCheck                       (* line 97: holds the mutex, the predicate was true *)
| WRun (unit_no : nat) (t : task)   (* line 104: mutex released, calls the task *)
| WExited                      (* returned from workerThread *)
| WCrashed.                    (* undefined behaviour or a call that never ends *)

(** Where the main thread stands, from the submission loop to the end of
    [main]; the destructor of the pool runs when [main] returns. *)
Inductive main_pc :=
| MSubmit (next : nat)         (* lines 211-212, 81-82: push unit [next] under the lock *)
| MNotify (next : nat)         (* line 84: condition.notify_one() *)
| MReport                      (* line 229: emit Scan completed. *)
| MPause                       (* line 230: std::cin.get() *)
| MStop                        (* line 73: stop = true *)
| MNotifyAll                   (* line 74: condition.notify_all() *)
| MJoin (i : nat)              (* lines 75-76: join worker i *)
| MExit.                       (* main has returned 0 *)

Record state := {
  pc : main_pc;
  tasks : list (nat * task);   (* the queue, each task with its submission number *)
  stop : bool;
  mutex : option nat;          (* the worker that holds queueMutex *)
  workers : list worker_pc;
  out : list output;           (* the output statements executed so far *)
  ran : list (nat * (nat * task));   (* every call of a task, in order: the worker,
                                        and the task with its submission number *)
}.

Definition set_pc (p : main_pc) (s : state) : state :=
  {| pc := p; tasks := tasks s; stop := stop s; mutex := mutex s;
     workers := workers s; out := out s; ran := ran s |}.

Definition set_worker (i : nat) (w : worker_pc) (s : state) : state :=
  {| pc := pc s; tasks := tasks s; stop := stop s; mutex := mutex s;
     workers := <[i := w]> (workers s); out := out s; ran := ran s |}.

Definition set_mutex (m : option nat) (s : state) : state :=
  {| pc := pc s; tasks := tasks s; stop := stop s; mutex := m;
     workers := workers s; out := out s; ran := ran s |}.

Definition set_tasks (q : list (nat * task)) (s : state) : state :=
  {| pc := pc s; tasks := q; stop := stop s; mutex := mutex s;
     workers := workers s; out := out s; ran := ran s |}.

Definition emit (lines : list output) (s : state) : state :=
  {| pc := pc s; tasks := tasks s; stop := stop s; mutex := mutex s;
     workers := workers s; out := out s ++ lines; ran := ran s |}.

Definition is_blocked (w : worker_pc) : bool :=
  match w with WBlocked => true | _ => false end.

Definition wake (w : worker_pc) : worker_pc :=
  match w with WBlocked => WLock | _ => w end.

(** [condition.notify_one()]: wakes the waiting worker [pick]; does nothing
    when no worker waits. *)
Definition notify_one (pick : nat) (s : state) : option state :=
  match workers s !! pick with
  | Some WBlocked => Some (set_worker pick WLock s)
  | _ => if existsb is_blocked (workers s) then None else Some s
  end.

(** [condition.notify_all()] *)
Definition notify_all (s : state) : state :=
  {| pc := pc s; tasks := tasks s; stop := stop s; mutex := mutex s;
     workers := wake <$> workers s; out := out s; ran := ran s |}.

(** One step of the main thread.  The block of [submit] under the
    [lock_guard] is one step, enabled when the mutex is free. *)
Definition main_step (units : list task) (pick : nat) (s : state) : option state :=
  match pc s with
  | MSubmit next =>
      match units !! next with
      | Some t =>
          match mutex s with
          | None => Some (set_pc (MNotify next) (set_tasks (tasks s ++ [(next, t)]) s))
          | Some _ => None
          end
      | None => Some (set_pc MReport s)
      end
  | MNotify next => set_pc (MSubmit (S next)) <$> notify_one pick s
  | MReport => Some (set_pc MPause (emit [OutScanCompleted] s))
  | MPause => Some (set_pc MStop s)
  | MStop =>
      Some {| pc := MNotifyAll; tasks := tasks s; stop := true; mutex := mutex s;
              workers := workers s; out := out s; ran := ran s |}
  | MNotifyAll => Some (set_pc (MJoin 0) (notify_all s))
  | MJoin i =>
      match workers s !! i with
      | None => Some (set_pc MExit s)
      | Some WExited => Some (set_pc (MJoin (S i)) s)
      | Some _ => None
      end
  | MExit => None
  end.

(** One step of worker [i] through [workerThread].  The call of the task is
    one step, which records the call and the output statements the task
    executes. *)
Definition worker_step (i : nat) (s : state) : option state :=
  match workers s !! i with
  | Some WLock =>
      match mutex s with
      | None => Some (set_worker i WWait (set_mutex (Some i) s))
      | Some _ => None
      end
  | Some WWait =>
      if stop s || negb (bool_decide (tasks s = [])) then Some (set_worker i WCheck s)
      else Some (set_worker i WSleep s)
  | Some WSleep => Some (set_worker i WBlocked (set_mutex None s))
  | Some WBlocked => Some (set_worker i WLock s)     (* spurious wake-up *)
  | Some WCheck =>
      if stop s && bool_decide (tasks s = []) then
        Some (set_worker i WExited (set_mutex None s))
      else
        match tasks s with
        | (n, t) :: rest => Some (set_worker i (WRun n t) (set_mutex None (set_tasks rest s)))
        | [] => Some (set_worker i WCrashed s)          (* front() of an empty queue *)
        end
  | Some (WRun n t) =>
      let s' :=
        {| pc := pc s; tasks := tasks s; stop := stop s; mutex := mutex s;
           workers := workers s; out := out s ++ writes t; ran := ran s ++ [(i, (n, t))] |} in
      match ending t with
      | Ok _ | Throw _ => Some (set_worker i WLock s')    (* try { task(); } catch (...) { } *)
      | Undefined | OutOfFuel => Some (set_worker i WCrashed s')
      end
  | Some WExited | Some WCrashed | None => None
  end.

Inductive action :=
| Main (pick : nat)     (* the main thread moves; [pick] is the worker a notify_one wakes *)
| Worker (i : nat).     (* worker [i] moves *)

Definition step (units : list task) (a : action) (s : state) : option state :=
  match a with
  | Main pick => main_step units pick s
  | Worker i => worker_step i s
  end.

(** An execution under a schedule; [None] if the schedule asks a thread to
    move that cannot. *)
Fixpoint run (units : list task) (schedule : list action) (s : state) : option state :=
  match schedule with
  | [] => Some s
  | a :: schedule' =>
      match step units a s with
      | Some s' => run units schedule' s'
      | None => None
      end
  end.

(** The state after the constructor [ThreadPool pool(threadCount)]. *)
Definition pool_created (threadCount : nat) (printed : list output) : state :=
  {| pc := MSubmit 0; tasks := []; stop := false; mutex := None;
     workers := replicate threadCount WLock; out := printed; ran := [] |}.

Definition reachable (units : list task) (threadCount : nat) (printed : list output)
    (s : state) : Prop :=
  ∃ schedule, run units schedule (pool_created threadCount printed) = Some s.

(** ** [main] up to the creation of the pool *)

Inductive signature_file :=
| SigNotRegular
| SigFile (src : source).

(** What the stream buffer throws when a read meets a device error:
    [std::ios_base::failure], which derives from [std::exception].  Its text
    is the message of [basic_filebuf::underflow] followed by the description
    of the error code, [EIO] for a device error. *)
Definition read_failure : exn :=
  StdException "basic_filebuf::underflow error reading the file: Input/output error".

(** Lines 126-134.  The [istreambuf_iterator] of line 133 takes the bytes
    from the stream buffer one by one up to the end of the file; when it
    meets a device error the exception of the buffer leaves the function. *)
Definition load_signature (f : signature_file) (path : string) : result (list byte) :=
  match f with
  | SigNotRegular => Throw (StdException "Signature path is not a regular file.")
  | SigFile src =>
      let file := ifstream_open src in
      if failed file then Throw (StdException ("Cannot open signature file: " +:+ path))
      else if broken file then Throw read_failure
      else Ok (pending file)
  end.

(** What the program finds around it. *)
Record environment := {
  hardware_concurrency : nat;
  signature_at : string → signature_file;
  regular_files_under : string → result (list string);
  file_at : string → file_view;
}.

Inductive startup :=
| Exited (code : Z) (printed : list output)   (* main returned before creating the pool *)
| Aborted                                     (* an exception left main *)
| Scanning (units : list task) (s : state).   (* the pool exists, nothing submitted yet *)

(** Lines 176-209. *)
Definition main_startup (env : environment) (argv : list string) : startup :=
  match argv with
  | [_; root_dir; sig_file] =>
      let loaded :=
        signature ← load_signature (signature_at env sig_file) sig_file;
        match signature with
        | [] => Throw (StdException "Signature file is empty.")
        | _ :: _ => Ok signature
        end in
      match loaded with
      | Ok signature =>
          match regular_files_under env root_dir with
          | Ok files =>
              Scanning ((λ path, scan_file (file_at env path) signature path) <$> files)
                       (pool_created (hardware_concurrency env) [OutScanStarted])
          | Throw (StdException what) => Exited 1 [OutScanStarted; OutTraverseError what]
          | _ => Aborted
          end
      | Throw (StdException what) => Exited 1 [OutError what]
      | _ => Aborted
      end
  | _ => Exited 1 [OutUsage (default String.EmptyString (head argv))]
  end.

(** ** Vocabulary of the matcher's specification *)

(** The pattern lies in the text at byte offset [k]. *)
Definition occurs_at (pat text : list byte) (k : nat) : Prop :=
  take (length pat) (drop k text) = pat.

Definition occurs (pat text : list byte) : Prop := ∃ k, occurs_at pat text k.

(** The test [it != last] on the result of [std::search]. *)
Definition found (text pat : list byte) : bool :=
  negb (search text pat =? length text).

(** The bytes that reads of [chunk] bytes each get from a stream: all the
    pending ones when the file ends behind them, the full chunks among them
    when a device error follows. *)
Definition obtained_from (chunk : nat) (f : ifstream) : list byte :=
  if broken f then take (length (pending f) / chunk * chunk) (pending f)
  else pending f.

(** The same for a file read from its start: the whole file, or the full
    chunks in front of the device error. *)
Definition obtained (chunk : nat) (data : list byte) (fault : option nat) : list byte :=
  match fault with
  | None => data
  | Some n => if n <? length data then take (n / chunk * chunk) data else data
  end.

(** The bytes in front of the freshly read chunk in the search window of
    the pass that starts in state [st]. *)
Definition front (OVERLAP buffer_size : nat) (st : loop_state) : list byte :=
  if OVERLAP <=? bytesRead st then drop buffer_size (buffer st)
  else take OVERLAP (buffer st).

(** The loop invariant at the head of a pass. *)
Definition loop_inv (OVERLAP buffer_size : nat) (st : loop_state) : Prop :=
  length (buffer st) = buffer_size + OVERLAP
  ∧ failed (file st) = false
  ∧ (bytesRead st = 0 ∨ bytesRead st = buffer_size).

(** What every pass of the loop may do, for a signature with the given
    overlap and chunk size. *)
Definition event_ok (OVERLAP buffer_size : nat) (ev : event) : Prop :=
  match ev with
  | EvAlloc _ => False
  | EvCarry br n => br ≠ CarryPartial ∧ (n = 0 ∨ n = buffer_size)
  | EvCopy first last dst =>
      copy_in_bounds (buffer_size + OVERLAP) first last dst = true
  | EvRead offset request => offset = OVERLAP ∧ request = buffer_size
  end.

Definition allocations (evs : list event) : list nat :=
  omap (λ ev, match ev with EvAlloc n => Some n | _ => None end) evs.

Definition read_requests (evs : list event) : list (nat * nat) :=
  omap (λ ev, match ev with EvRead off n => Some (off, n) | _ => None end) evs.

Definition carry_reads (evs : list event) : list nat :=
  omap (λ ev, match ev with EvCarry _ n => Some n | _ => None end) evs.

Definition carry_branches (evs : list event) : list carry_branch :=
  omap (λ ev, match ev with EvCarry br _ => Some br | _ => None end) evs.

Definition copies (evs : list event) : list (Z * Z * Z) :=
  omap (λ ev, match ev with EvCopy f l d => Some (f, l, d) | _ => None end) evs.

(** ** Vocabulary of the pool's specification *)

(** The unit a worker has claimed and not yet finished. *)
Definition in_flight (w : worker_pc) : list (nat * task) :=
  match w with WRun n t => [(n, t)] | _ => [] end.

Definition held (ws : list worker_pc) : list (nat * task) := ws ≫= in_flight.

(** The units with their submission numbers. *)
Definition numbered (units : list task) : list (nat * task) :=
  imap (λ n t, (n, t)) units.

(** How many units the main thread has pushed so far. *)
Definition submitted (units : list task) (p : main_pc) : nat :=
  match p with
  | MSubmit next => next
  | MNotify next => S next
  | _ => length units
  end.

(** The destructor has set [stop]. *)
Definition shutting_down (p : main_pc) : Prop :=
  match p with
  | MNotifyAll | MJoin _ | MExit => True
  | _ => False
  end.

(** The workers the destructor has joined so far have returned. *)
Definition joined (p : main_pc) (ws : list worker_pc) : Prop :=
  match p with
  | MJoin j => ∀ i, i < j → ws !! i = Some WExited
  | MExit => ∀ i, i < length ws → ws !! i = Some WExited
  | _ => True
  end.

(** What holds in every state of every execution. *)
Record pool_inv (units : list task) (s : state) : Prop := {
  inv_submitted : submitted units (pc s) ≤ length units;
  inv_notify : ∀ next, pc s = MNotify next → next < length units;
  inv_accounted :
    (ran s).*2 ++ held (workers s) ++ tasks s
    ≡ₚ numbered (take (submitted units (pc s)) units);
  inv_stop : stop s = true → shutting_down (pc s);
  inv_exited : ∀ i, workers s !! i = Some WExited → stop s = true ∧ tasks s = [];
  inv_joined : joined (pc s) (workers s);
}.

(** The worker is inside the critical section of [workerThread]. *)
Definition holds_mutex (w : worker_pc) : bool :=
  match w with WWait | WSleep | WCheck => true | _ => false end.

(** The call of the task returns or throws. *)
Definition well_behaved (t : task) : Prop :=
  match ending t with
  | Ok _ | Throw _ => True
  | Undefined | OutOfFuel => False
  end.

(** The mutex protects the queue: a worker that is about to pop has found
    the queue non-empty or [stop] set, and nothing changed since. *)
Record lock_inv (s : state) : Prop := {
  lock_held : ∀ i w, workers s !! i = Some w → holds_mutex w = true → mutex s = Some i;
  lock_checked : ∀ i, workers s !! i = Some WCheck → stop s = true ∨ tasks s ≠ [];
  lock_alive : ∀ i, workers s !! i ≠ Some WCrashed;
  lock_queued : ∀ n t, (n, t) ∈ tasks s → well_behaved t;
  lock_running : ∀ i n t, workers s !! i = Some (WRun n t) → well_behaved t;
}.



(** The first [k] workers, one after the other, take the three steps from
    the head of the loop to the [return]. *)
Definition exit_schedule (k : nat) : list action :=
  seq 0 k ≫= λ i, replicate 3 (Worker i).










(** ** Concrete runs *)

Definition infected_elf : list byte := ELF_MAGIC ++ SIGNATURE.
Definition clean_elf : list byte := ELF_MAGIC ++ replicate 508 x00.

Definition steady (data : list byte) : file_view :=
  {| at_classify := Readable data None; at_match := Readable data None |}.



(** A root directory that holds one infected ELF file, scanned on a machine
    with one hardware thread. *)
Definition lone_infected : environment :=
  {| hardware_concurrency := 1;
     signature_at := λ _, SigFile (Readable SIGNATURE None);
     regular_files_under := λ _, Ok ["a.out"%string];
     file_at := λ _, steady infected_elf |}.

Definition empty_signature_file : environment :=
  {| hardware_concurrency := 1;
     signature_at := λ _, SigFile (Readable [] None);
     regular_files_under := λ _, Ok ["a.out"%string];
     file_at := λ _, steady infected_elf |}.

Definition command_line : list string := ["find_sig"; "root"; "sig.sig"]%string.

(** The main thread submits, reports and only then the worker starts. *)
Definition main_runs_ahead : list action :=
  [Main 0; Main 0; Main 0; Main 0].

Definition worker_catches_up : list action :=
  [Worker 0; Worker 0; Worker 0; Worker 0;
   Main 0; Main 0; Main 0;
   Worker 0; Worker 0; Worker 0;
   Main 0; Main 0].

(** A worker finds the queue empty and [stop] unset, and is about to block
    when the destructor sets [stop] and notifies. *)
Definition notified_too_early : list action :=
  [Worker 0; Worker 0; Main 0; Main 0; Main 0; Main 0; Main 0; Worker 0].





Ltac st_simpl :=
  cbn [pc tasks stop mutex workers out ran set_pc set_tasks set_worker set_mutex
       emit notify_all submitted shutting_down joined] in *.

(** ** Further vocabulary *)

(** Whether the unit of a file reports it: the file is classified as ELF
    and the matcher returns true. *)
Definition reports (view : file_view) (signature : list byte) : bool :=
  isELFFile (at_classify view)
  && match fst (containsSignatureBuffered (at_match view) signature) with
     | Ok b => b
     | _ => false
     end.

(** The queue holds the units submitted last, in the order of submission;
    [claimed] are the ones that have left it. *)
Definition fifo (units : list task) (s : state) : Prop :=
  ∃ claimed, numbered (take (submitted units (pc s)) units) = claimed ++ tasks s.

(** With one worker: the calls made, the unit in the hands of the worker
    and the queue, one after the other, are the submitted units in order. *)
Definition in_order (units : list task) (s : state) : Prop :=
  (ran s).*2 ++ held (workers s) ++ tasks s
  = numbered (take (submitted units (pc s)) units).

(** The state of the run of [lone_infected] once the worker has claimed the
    unit, after the main thread has reported. *)
Definition lone_unit : task := scan_file (steady infected_elf) SIGNATURE "a.out".

Definition unit_claimed : state :=
  {| pc := MPause; tasks := []; stop := false; mutex := None;
     workers := [WRun 0 lone_unit];
     out := [OutScanStarted; OutScanCompleted]; ran := [] |}.

Definition claim_schedule : list action :=
  main_runs_ahead ++ [Worker 0; Worker 0; Worker 0].

(** ** The test programs of the repository *)

(** [v.resize(n, fill)] *)
Definition resize (n : nat) (fill : byte) (v : list byte) : list byte :=
  take n v ++ replicate (n - length v) fill.

(** The generators of the first test program.  [buffer_size - 2] is
    computed in [size_t]; the model is the generator for
    [2 <= buffer_size]. *)
Definition make_clean_elf : list byte := resize 512 x00 ELF_MAGIC.

Definition make_infected_elf : list byte :=
  ELF_MAGIC ++ replicate 200 x00 ++ SIGNATURE ++ replicate 300 x00.

Definition make_elf_with_signature_at_start : list byte :=
  resize 512 x00 (ELF_MAGIC ++ SIGNATURE).

Definition make_elf_with_signature_at_end : list byte :=
  resize (512 - length SIGNATURE) x00 ELF_MAGIC ++ SIGNATURE.

Definition make_elf_with_cross_boundary_signature (buffer_size : nat) : list byte :=
  resize (buffer_size * 2) ("B"%byte)
         (resize (buffer_size - 2) ("A"%byte) ELF_MAGIC ++ SIGNATURE).

Definition make_elf_with_partial_signature : list byte :=
  resize 512 x00 (ELF_MAGIC ++ ["c"; "r"; "y"]%byte).

Definition make_non_elf : list byte :=
  ["N"; "O"; "T"; "_"; "E"; "L"; "F"; x0a]%byte.

(** The lines the unit of the file writes when it is scanned for the test
    signature. *)
Definition scan_result (data : list byte) (path : string) : list output :=
  writes (scan_file (steady data) SIGNATURE path).

(** *** The text of an infected line and how the tests read it *)

Definition double_quote : Ascii.ascii := Ascii.ascii_of_nat 34.
Definition backslash : Ascii.ascii := Ascii.ascii_of_nat 92.

(** [std::quoted(s)], which [operator<<] applies to a [fs::path]: the
    string between double quotes, with a backslash in front of every double
    quote and backslash in it. *)
Fixpoint escaped (s : string) : string :=
  match s with
  | String.EmptyString => String.EmptyString
  | String.String c s' =>
      if bool_decide (c = double_quote) || bool_decide (c = backslash)
      then String.String backslash (String.String c (escaped s'))
      else String.String c (escaped s')
  end.

Definition quoted (s : string) : string :=
  String.String double_quote (escaped s +:+ String.String double_quote String.EmptyString).

(** Line 218 of [find_sig.cpp], without the newline that [std::getline]
    removes. *)
Definition infected_line (path : string) : string :=
  "!!! File " +:+ (quoted path +:+ " is infected!").

(** [line.find(needle)] *)
Definition string_find (needle line : string) : option nat :=
  String.index 0 needle line.

(** [line.substr(pos)] for [pos <= line.size()] *)
Fixpoint substr_from (pos : nat) (line : string) : string :=
  match pos, line with
  | 0, _ => line
  | S pos', String.String _ line' => substr_from pos' line'
  | S _, String.EmptyString => String.EmptyString
  end.

(** The body of the loop that reads the output of the scanner
    ([run_detector], and the same lines in the [main] of the first test
    program): what is inserted into the set of reported files for a line, if
    anything. *)
Definition reported_entry (line : string) : option string :=
  match string_find "is infected!" line with
  | None => None
  | Some _ =>
      match string_find "File " line with
      | None => None
      | Some pos => Some (substr_from (pos + 5) line)
      end
  end.

(** * Proofs: the matcher *)

Lemma byte_eqb_eq (a b : byte) : Byte.eqb a b = true ↔ a = b.
Proof. split; [apply Byte.byte_dec_bl | apply Byte.byte_dec_lb]. Qed.

Lemma matches_here_spec pat text :
  matches_here pat text = true ↔ take (length pat) text = pat.
Proof.
  revert text. induction pat as [|p pat IH]; intros [|t text]; simpl; try done.
  rewrite andb_true_iff, byte_eqb_eq, IH. split.
  - intros [-> ->]. done.
  - intros [= -> ?]. done.
Qed.

Lemma occurs_at_bound pat text k :
  pat ≠ [] → occurs_at pat text k → k + length pat ≤ length text.
Proof.
  unfold occurs_at. intros Hne H.
  assert (Hl : length (take (length pat) (drop k text)) = length pat) by (by rewrite H).
  rewrite length_take, length_drop in Hl.
  assert (0 < length pat) by (destruct pat; simpl; [done|lia]). lia.
Qed.

Lemma occurs_at_cons pat a text k :
  occurs_at pat (a :: text) (S k) ↔ occurs_at pat text k.
Proof. done. Qed.

Lemma search_le text pat : search text pat ≤ length text.
Proof.
  induction text as [|a text IH]; simpl; [done|].
  destruct (matches_here pat (a :: text)); lia.
Qed.

Lemma found_iff text pat : pat ≠ [] → found text pat = true ↔ occurs pat text.
Proof.
  intros Hne. unfold found, occurs.
  rewrite negb_true_iff, Nat.eqb_neq.
  induction text as [|a text IH]; simpl.
  - split; [done|]. intros [k Hk]. apply occurs_at_bound in Hk; [|done].
    destruct pat; [done|]. simpl in Hk. lia.
  - destruct (matches_here pat (a :: text)) eqn:Hm.
    + split; [|done]. intros _. exists 0. by apply matches_here_spec.
    + split.
      * intros H. destruct IH as [IH _].
        destruct IH as [k Hk]; [lia|]. exists (S k). by apply occurs_at_cons.
      * intros [[|k] Hk].
        -- apply (proj2 (matches_here_spec pat (a :: text))) in Hk. congruence.
        -- apply occurs_at_cons in Hk. destruct IH as [_ IH].
           specialize (IH (ex_intro _ k Hk)). lia.
Qed.

Lemma occurs_at_app_l pat X Y k :
  k + length pat ≤ length X → occurs_at pat (X ++ Y) k ↔ occurs_at pat X k.
Proof.
  intros Hk. unfold occurs_at.
  rewrite drop_app_le by lia.
  rewrite take_app_le; [done|]. rewrite length_drop. lia.
Qed.

Lemma occurs_at_drop pat text n k :
  occurs_at pat (drop n text) k ↔ occurs_at pat text (n + k).
Proof. unfold occurs_at. by rewrite drop_drop. Qed.

Lemma occurs_app_l pat X Y : pat ≠ [] → occurs pat X → occurs pat (X ++ Y).
Proof.
  intros Hne [k Hk]. exists k. apply occurs_at_app_l; [|done].
  by apply occurs_at_bound.
Qed.

Lemma occurs_app_r pat X Y : occurs pat Y → occurs pat (X ++ Y).
Proof.
  intros [k Hk]. exists (length X + k).
  apply occurs_at_drop. by rewrite drop_app_length.
Qed.

(** An occurrence that does not fit in the first [length X] bytes starts in
    the last [length pat - 1] of them or later. *)
Lemma occurs_slide pat X Y n :
  pat ≠ [] → n + (length pat - 1) = length X →
  ¬ occurs pat X →
  occurs pat (X ++ Y) ↔ occurs pat (drop n X ++ Y).
Proof.
  intros Hne Hlen Hno.
  assert (Hd : drop n X ++ Y = drop n (X ++ Y)) by (rewrite drop_app_le; [done|lia]).
  rewrite Hd. split.
  - intros [k Hk].
    destruct (decide (k + length pat ≤ length X)) as [Hfit|Hfit].
    + exfalso. apply Hno. exists k. by apply (occurs_at_app_l pat X Y).
    + exists (k - n). apply occurs_at_drop.
      replace (n + (k - n)) with k by lia. done.
  - intros [k Hk]. exists (n + k). by apply occurs_at_drop.
Qed.

Lemma found_ext pat X Y : pat ≠ [] → (occurs pat X ↔ occurs pat Y) → found X pat = found Y pat.
Proof.
  intros Hne H. apply eq_iff_eq_true. by rewrite !found_iff.
Qed.

Lemma length_write_at buf off data :
  off + length data ≤ length buf → length (write_at buf off data) = length buf.
Proof.
  intros H. unfold write_at. rewrite !length_app, length_take, length_drop. lia.
Qed.

Lemma take_write_at buf off data :
  off ≤ length buf → take (length data + off) (write_at buf off data) = take off buf ++ data.
Proof.
  intros H. unfold write_at.
  rewrite app_assoc. apply take_app_length'.
  rewrite length_app, length_take. lia.
Qed.

Lemma write_at_full buf off data :
  off + length data = length buf → write_at buf off data = take off buf ++ data.
Proof.
  intros H. unfold write_at. rewrite drop_ge by lia. by rewrite app_nil_r.
Qed.

Lemma div_chunk n chunk : 0 < chunk → chunk ≤ n → (n - chunk) / chunk + 1 = n / chunk.
Proof.
  intros Hpos Hle. replace n with ((n - chunk) + 1 * chunk) at 2 by lia.
  rewrite Nat.div_add by lia. done.
Qed.

Section Loop.
Variable signature : list byte.
Variables buffer_size OVERLAP : nat.
Hypothesis signature_nonempty : signature ≠ [].
Hypothesis overlap_of_signature : OVERLAP = length signature - 1.
Hypothesis chunk_positive : 0 < buffer_size.
Hypothesis chunk_covers_overlap : OVERLAP ≤ buffer_size.

Lemma length_front st : loop_inv OVERLAP buffer_size st → length (front OVERLAP buffer_size st) = OVERLAP.
Proof.
  intros (Hlen & _ & _). unfold front.
  destruct (OVERLAP <=? bytesRead st); rewrite ?length_drop, ?length_take; lia.
Qed.

Lemma carry_over_inv st :
  loop_inv OVERLAP buffer_size st →
  ∃ carried evs,
    carry_over OVERLAP (buffer st) (bytesRead st) = (Ok carried, evs)
    ∧ length carried = buffer_size + OVERLAP
    ∧ take OVERLAP carried = front OVERLAP buffer_size st
    ∧ Forall (event_ok OVERLAP buffer_size) evs
    ∧ carry_reads evs = [bytesRead st].
Proof.
  intros (Hlen & _ & Hread). unfold carry_over, select_carry, front.
  destruct (OVERLAP <=? bytesRead st) eqn:Hov.
  - apply Nat.leb_le in Hov.
    assert (Hb : copy_in_bounds (length (buffer st))
                   (Z.of_nat (length (buffer st)) - Z.of_nat OVERLAP)
                   (Z.of_nat (length (buffer st))) 0 = true).
    { unfold copy_in_bounds. rewrite Hlen.
      repeat (apply andb_true_intro; split); try (apply Z.leb_le; lia).
      apply orb_true_iff. left. apply Z.ltb_lt. lia. }
    unfold std_copy. rewrite Hb. eexists _, _. split; [done|].
    assert (Hfirst : Z.to_nat (Z.of_nat (length (buffer st)) - Z.of_nat OVERLAP) = buffer_size)
      by lia.
    assert (Hcount : Z.to_nat (Z.of_nat (length (buffer st))
              - (Z.of_nat (length (buffer st)) - Z.of_nat OVERLAP)) = OVERLAP) by lia.
    rewrite Hfirst, Hcount. change (Z.to_nat 0) with 0.
    assert (Htail : take OVERLAP (drop buffer_size (buffer st)) = drop buffer_size (buffer st)).
    { apply take_ge. rewrite length_drop. lia. }
    rewrite Htail. split_and!.
    + rewrite length_write_at; [done|]. rewrite length_drop. lia.
    + unfold write_at. simpl. apply take_app_length'. rewrite length_drop. lia.
    + constructor; [|constructor; [|constructor]].
      * split; [done|]. destruct Hread; auto.
      * simpl. by rewrite <- Hlen.
    + done.
  - apply Nat.leb_gt in Hov.
    destruct Hread as [H0|HC]; [|lia].
    rewrite H0. simpl. eexists _, _. split_and!; try done.
    constructor; [|constructor]. split; [done|by left].
Qed.

(** A full chunk taken off a stream, and what is obtained from the rest. *)
Lemma obtained_from_chunk f :
  buffer_size ≤ length (pending f) →
  obtained_from buffer_size f
  = take buffer_size (pending f)
    ++ obtained_from buffer_size
         {| pending := drop buffer_size (pending f); broken := broken f; failed := false |}.
Proof.
  intros Hge. unfold obtained_from. cbn [broken pending].
  destruct (broken f); [|by rewrite take_drop].
  rewrite take_take_drop, length_drop. f_equal.
  rewrite <- (div_chunk (length (pending f)) buffer_size) by done. lia.
Qed.

(** One pass of the loop: it searches the bytes in front of the chunk
    followed by the bytes the read delivers, and goes on only after a full
    chunk in which nothing was found. *)
Lemma loop_body_spec st :
  loop_inv OVERLAP buffer_size st →
  ∃ got evs,
    Forall (event_ok OVERLAP buffer_size) evs
    ∧ carry_reads evs = [bytesRead st]
    ∧ ((loop_body signature buffer_size st = (Return true, evs)
        ∧ found (front OVERLAP buffer_size st ++ got) signature = true
        ∧ ∃ rest, obtained_from buffer_size (file st) = got ++ rest)
       ∨ (loop_body signature buffer_size st = (Return false, evs)
          ∧ found (front OVERLAP buffer_size st ++ got) signature = false
          ∧ obtained_from buffer_size (file st) = got)
       ∨ (∃ st', loop_body signature buffer_size st = (Continue st', evs)
                 ∧ found (front OVERLAP buffer_size st ++ got) signature = false
                 ∧ loop_inv OVERLAP buffer_size st'
                 ∧ front OVERLAP buffer_size st'
                   = drop buffer_size (front OVERLAP buffer_size st ++ got)
                 ∧ bytesRead st' = buffer_size
                 ∧ length got = buffer_size
                 ∧ obtained_from buffer_size (file st)
                   = got ++ obtained_from buffer_size (file st')
                 ∧ length (pending (file st')) + buffer_size
                   = length (pending (file st)))).
Proof.
  intros Hinv.
  pose proof (length_front st Hinv) as Hfront.
  destruct (carry_over_inv st Hinv)
    as (carried & evs & Hcarry & Hclen & Hctake & Hevs & Hreads).
  pose proof Hinv as (Hlen & Hfail & Hread).
  assert (Hevs' : Forall (event_ok OVERLAP buffer_size) (evs ++ [EvRead OVERLAP buffer_size])).
  { apply Forall_app. split; [done|]. constructor; [|constructor]. by split. }
  assert (Hreads' : carry_reads (evs ++ [EvRead OVERLAP buffer_size]) = [bytesRead st]).
  { unfold carry_reads in *. rewrite omap_app, Hreads. done. }
  (* the outcome of the pass, given what the read delivers *)
  assert (Hwindow : ∀ got : list byte,
            (search (take (length got + OVERLAP) (write_at carried OVERLAP got)) signature
             =? length got + OVERLAP)
            = negb (found (front OVERLAP buffer_size st ++ got) signature)).
  { intros got. rewrite take_write_at by lia. rewrite Hctake.
    unfold found. rewrite negb_involutive, length_app, Hfront.
    by rewrite (Nat.add_comm OVERLAP). }
  unfold loop_body. rewrite <- overlap_of_signature, Hcarry.
  unfold ifstream_read. rewrite Hfail.
  set (got := take buffer_size (pending (file st))).
  assert (Hgot : length got = length (pending (file st)) `min` buffer_size)
    by (unfold got; rewrite length_take; lia).
  destruct (length got <? buffer_size) eqn:Hshort.
  - (* the stream has less than a chunk left *)
    pose proof Hshort as Hshortb. apply Nat.ltb_lt in Hshort.
    assert (Hall : got = pending (file st)) by (unfold got; apply take_ge; lia).
    destruct (broken (file st)) eqn:Hbroken; cbn [andb].
    + (* the read meets the device error *)
      assert (Hnone : obtained_from buffer_size (file st) = []).
      { unfold obtained_from. rewrite Hbroken, Nat.div_small by lia. done. }
      exists [], (evs ++ [EvRead OVERLAP buffer_size]).
      split; [done|]. split; [done|].
      rewrite (Hwindow []), negb_involutive.
      destruct (found (front OVERLAP buffer_size st ++ []) signature) eqn:Hfound.
      * left. split_and!; [done..|]. by exists [].
      * right. left. cbn [length].
        destruct (0 <? buffer_size) eqn:Hpos; [done|].
        apply Nat.ltb_ge in Hpos. lia.
    + (* the read reaches the end of the file *)
      assert (Hrest : obtained_from buffer_size (file st) = got).
      { unfold obtained_from. by rewrite Hbroken. }
      exists got, (evs ++ [EvRead OVERLAP buffer_size]).
      split; [done|]. split; [done|].
      rewrite (Hwindow got), negb_involutive.
      destruct (found (front OVERLAP buffer_size st ++ got) signature) eqn:Hfound.
      * left. split_and!; [done..|]. exists []. by rewrite app_nil_r.
      * right. left. by rewrite Hshortb.
  - (* a full chunk *)
    apply Nat.ltb_ge in Hshort. cbn [andb].
    assert (Hge : buffer_size ≤ length (pending (file st))) by lia.
    assert (Hfull : length got = buffer_size) by lia.
    exists got, (evs ++ [EvRead OVERLAP buffer_size]).
    split; [done|]. split; [done|].
    rewrite (Hwindow got), negb_involutive.
    pose proof (obtained_from_chunk (file st) Hge) as Hchunk. fold got in Hchunk.
    destruct (found (front OVERLAP buffer_size st ++ got) signature) eqn:Hfound.
    + left. split_and!; [done..|]. by eexists.
    + right. right.
      destruct (length got <? buffer_size) eqn:Hlt; [apply Nat.ltb_lt in Hlt; lia|].
      assert (Hfilled : write_at carried OVERLAP got = front OVERLAP buffer_size st ++ got).
      { rewrite write_at_full by lia. by rewrite Hctake. }
      eexists. split; [done|]. cbn [buffer bytesRead file pending].
      split_and!; try done.
      * unfold loop_inv. cbn [buffer bytesRead file failed].
        split_and!; [|done|by right].
        rewrite Hfilled, length_app, Hfront. lia.
      * unfold front. cbn [buffer bytesRead]. rewrite Hfilled.
        destruct (OVERLAP <=? length got) eqn:E; [done|].
        apply Nat.leb_gt in E. lia.
      * rewrite length_drop. lia.
Qed.

(** The loop decides whether the signature lies in the bytes in front of
    the chunk followed by the bytes the reads obtain from the stream; it
    neither runs out of fuel nor leaves the buffer. *)
Lemma scan_loop_spec fuel st :
  loop_inv OVERLAP buffer_size st → length (pending (file st)) < fuel →
  ∃ evs,
    scan_loop fuel signature buffer_size st
    = (Ok (found (front OVERLAP buffer_size st ++ obtained_from buffer_size (file st))
             signature), evs)
    ∧ Forall (event_ok OVERLAP buffer_size) evs
    ∧ ∃ passes, carry_reads evs = bytesRead st :: replicate passes buffer_size.
Proof.
  revert st. induction fuel as [|fuel IH]; intros st Hinv Hfuel; [lia|].
  pose proof (length_front st Hinv) as Hfront.
  pose proof Hinv as (_ & Hfail & _).
  cbn [scan_loop]. rewrite Hfail.
  destruct (loop_body_spec st Hinv) as (got & evs & Hevs & Hreads & Hpass).
  destruct Hpass as [(-> & Hfound & rest & Hrest)
                    |[(-> & Hfound & Hrest)
                     |(st' & -> & Hfound & Hinv' & Hfront' & Hbytes & Hfull & Hrest & Hpend)]].
  - (* found in this window *)
    exists evs. split_and!; [|done|by exists 0]. do 2 f_equal. symmetry.
    apply found_iff; [done|]. rewrite Hrest, app_assoc.
    apply occurs_app_l; [done|]. by apply found_iff.
  - (* last pass *)
    exists evs. split_and!; [|done|by exists 0]. by rewrite Hrest, Hfound.
  - (* next pass *)
    destruct (IH st' Hinv') as (evs2 & Hrun & Hevs2 & passes & Hreads2); [lia|].
    rewrite Hrun. exists (evs ++ evs2).
    split_and!; [|by apply Forall_app|]; cycle 1.
    { exists (S passes). unfold carry_reads in *.
      rewrite omap_app, Hreads, Hreads2, Hbytes. done. }
    f_equal. f_equal. rewrite Hfront', Hrest, app_assoc. symmetry.
    apply found_ext; [done|].
    apply occurs_slide; [done| |].
    + rewrite length_app, Hfront. lia.
    + intros Hocc. apply found_iff in Hocc; [|done]. congruence.
Qed.
End Loop.

Lemma chunk_size_positive signature : 0 < chunk_size signature.
Proof. unfold chunk_size, MIN_BUFFER_SIZE. lia. Qed.

Lemma chunk_size_covers signature : length signature - 1 ≤ chunk_size signature.
Proof. unfold chunk_size, EXTRA_BUFFER. lia. Qed.

Lemma containsSignatureBuffered_nonempty src signature :
  signature ≠ [] →
  containsSignatureBuffered src signature
  = let OVERLAP := length signature - 1 in
    let file := ifstream_open src in
    if failed file then (Ok false, [])
    else
      let buffer_size := chunk_size signature in
      let '(r, evs) :=
        scan_loop (S (length (pending file))) signature buffer_size
          {| buffer := replicate (buffer_size + OVERLAP) x00; bytesRead := 0; file := file |} in
      (r, EvAlloc (buffer_size + OVERLAP) :: evs).
Proof. by destruct signature. Qed.

Lemma obtained_from_open chunk data fault :
  obtained_from chunk (ifstream_open (Readable data fault)) = obtained chunk data fault.
Proof.
  unfold obtained_from, obtained. cbn [ifstream_open broken pending].
  destruct fault as [n|]; [|done]. cbn [breaks deliverable].
  destruct (n <? length data) eqn:Hn.
  - apply Nat.ltb_lt in Hn. rewrite length_take, Nat.min_l by lia.
    rewrite take_take. f_equal.
    pose proof (Nat.Div0.mul_div_le n chunk). lia.
  - apply Nat.ltb_ge in Hn. by rewrite take_ge.
Qed.

(** The function, on every source: it returns, and what it returns. *)
Lemma containsSignatureBuffered_spec src signature :
  signature ≠ [] →
  match src with
  | Unopenable => containsSignatureBuffered src signature = (Ok false, [])
  | Readable data fault =>
      ∃ evs,
        containsSignatureBuffered src signature
        = (Ok (found (replicate (length signature - 1) x00
                      ++ obtained (chunk_size signature) data fault) signature),
           EvAlloc (chunk_size signature + (length signature - 1)) :: evs)
        ∧ Forall (event_ok (length signature - 1) (chunk_size signature)) evs
        ∧ ∃ passes, carry_reads evs = 0 :: replicate passes (chunk_size signature)
  end.
Proof.
  intros Hne. rewrite containsSignatureBuffered_nonempty by done.
  destruct src as [|data fault]; [done|].
  rewrite <- obtained_from_open.
  set (file0 := ifstream_open (Readable data fault)).
  assert (Hfail : failed file0 = false) by done.
  cbn zeta. rewrite Hfail.
  set (st0 := {| buffer := replicate (chunk_size signature + (length signature - 1)) x00;
                 bytesRead := 0; file := file0 |}).
  destruct (scan_loop_spec signature (chunk_size signature) (length signature - 1)
              Hne eq_refl (chunk_size_positive _) (chunk_size_covers _)
              (S (length (pending file0))) st0) as (evs & Hrun & Hevs & Hreads).
  { unfold loop_inv, st0. cbn [buffer bytesRead file]. rewrite length_replicate. auto. }
  { cbn [st0 file]. lia. }
  rewrite Hrun.
  exists evs. split; [|done]. do 3 f_equal.
  unfold front, st0. cbn [buffer bytesRead file].
  destruct (length signature - 1 <=? 0) eqn:E.
  - apply Nat.leb_le in E. replace (length signature - 1) with 0 by lia.
    rewrite drop_ge; [done|]. rewrite length_replicate. lia.
  - rewrite take_replicate. by rewrite Nat.min_l by lia.
Qed.

(** The call returns on every source and every signature. *)
Lemma containsSignatureBuffered_returns src signature :
  ∃ b, fst (containsSignatureBuffered src signature) = Ok b.
Proof.
  destruct signature as [|s0 sig]; [by exists false|].
  pose proof (containsSignatureBuffered_spec src (s0 :: sig) ltac:(done)) as H.
  destruct src as [|data fault].
  - rewrite H. eauto.
  - destruct H as (evs & -> & _). eauto.
Qed.

(** The branch of the carry-over for a short, non-empty read forms an
    iterator in front of the buffer. *)
Lemma carry_partial_undefined OVERLAP buffer bytesRead :
  0 < bytesRead < OVERLAP →
  select_carry OVERLAP bytesRead = CarryPartial
  ∧ fst (carry_over OVERLAP buffer bytesRead) = Undefined.
Proof.
  intros [Hpos Hlt]. unfold carry_over, select_carry.
  destruct (OVERLAP <=? bytesRead) eqn:E1; [apply Nat.leb_le in E1; lia|].
  destruct (0 <? bytesRead) eqn:E2; [|apply Nat.ltb_ge in E2; lia].
  split; [done|]. simpl. unfold std_copy, copy_in_bounds.
  destruct (0 <=? Z.of_nat bytesRead - Z.of_nat OVERLAP)%Z eqn:E3; [|done].
  apply Z.leb_le in E3. lia.
Qed.

(** ** The matcher: claims *)

Lemma containsSignatureBuffered_readable data fault signature :
  signature ≠ [] →
  fst (containsSignatureBuffered (Readable data fault) signature)
  = Ok (found (replicate (length signature - 1) x00
               ++ obtained (chunk_size signature) data fault) signature).
Proof.
  intros Hne.
  destruct (containsSignatureBuffered_spec (Readable data fault) signature Hne)
    as (evs & -> & _).
  done.
Qed.

(** C1: a non-empty signature that lies in the file content at some byte
    offset [k] is detected, wherever [k] is: at the start of the file, at
    its very end, inside one chunk or across the boundary of two chunks of
    [max(4096, len(S) + 1024)] bytes. *)
Theorem C1_occurrence_detected (S B : list byte) (k : nat) :
  S ≠ [] → occurs_at S B k →
  fst (containsSignatureBuffered (Readable B None) S) = Ok true.
Proof.
  intros Hne Hk. rewrite containsSignatureBuffered_readable by done.
  f_equal. apply found_iff; [done|]. apply occurs_app_r. by exists k.
Qed.

Lemma C1_occurrence_detected_witness :
  occurs_at SIGNATURE infected_cross_boundary 4093
  ∧ fst (containsSignatureBuffered (Readable infected_cross_boundary None) SIGNATURE) = Ok true.
Proof.
  split.
  - vm_compute. reflexivity.
  - apply (C1_occurrence_detected SIGNATURE infected_cross_boundary 4093).
    + discriminate.
    + vm_compute. reflexivity.
Defined.

(** C2 fails on the code: with the signature [00 7F 'E' 'L' 'F'] the
    four-byte file [7F 'E' 'L' 'F'], which is shorter than the signature and
    so cannot hold it, is found to match: the window of the first pass starts
    with the zero bytes the buffer was created with.  The search of that
    pass runs over [00 00 00 00 7F 'E' 'L' 'F'] and stops at offset 3. *)
Theorem C2_zero_prefix_false_positive :
  ¬ occurs (x00 :: ELF_MAGIC) ELF_MAGIC
  ∧ search (replicate 4 x00 ++ ELF_MAGIC) (x00 :: ELF_MAGIC) = 3
  ∧ fst (containsSignatureBuffered (Readable ELF_MAGIC None) (x00 :: ELF_MAGIC)) = Ok true.
Proof.
  split_and!.
  - intros H. apply found_iff in H; [|done]. vm_compute in H. discriminate.
  - reflexivity.
  - vm_compute. reflexivity.
Qed.

(** Outside that defect the answer is exact: a signature whose first byte
    is not zero is reported if and only if it lies in the bytes the reads
    obtain. *)
Lemma containsSignatureBuffered_exact data fault s0 sig :
  s0 ≠ x00 →
  fst (containsSignatureBuffered (Readable data fault) (s0 :: sig)) = Ok true
  ↔ occurs (s0 :: sig) (obtained (chunk_size (s0 :: sig)) data fault).
Proof.
  intros Hs0. rewrite containsSignatureBuffered_readable by done.
  set (B := obtained (chunk_size (s0 :: sig)) data fault). set (S := s0 :: sig).
  replace (length S - 1) with (length sig) by (simpl; lia).
  split.
  - intros [= H]. apply found_iff in H; [|done]. destruct H as [k Hk].
    destruct (decide (k < length sig)) as [Hlt|Hge].
    + exfalso. unfold occurs_at in Hk.
      assert (Hhd : (replicate (length sig) x00 ++ B) !! k = Some s0).
      { rewrite <- (take_drop k (replicate (length sig) x00 ++ B)).
        rewrite lookup_app_r by (rewrite length_take, length_app, length_replicate; lia).
        rewrite length_take, length_app, length_replicate.
        replace (k - k `min` (length sig + length B)) with 0 by lia.
        rewrite <- (take_drop (length S) (drop k _)), Hk. done. }
      rewrite lookup_app_l in Hhd by (by rewrite length_replicate).
      apply lookup_replicate in Hhd. destruct Hhd. congruence.
    + exists (k - length sig). unfold occurs_at in *.
      rewrite <- Hk at 2. f_equal.
      rewrite drop_app_ge by (rewrite length_replicate; lia).
      by rewrite length_replicate.
  - intros H. f_equal. apply found_iff; [done|]. by apply occurs_app_r.
Qed.

(** C7: [isELFFile] answers true exactly when the file yields at least four
    bytes and the first four are [7F 'E' 'L' 'F']; a file that cannot be
    opened or yields fewer than four bytes gets the answer false. *)
Theorem C7_isELFFile_iff_magic (src : source) :
  (isELFFile src = true
   ↔ ∃ bytes, readable_bytes src = Some bytes ∧ 4 ≤ length bytes ∧ take 4 bytes = ELF_MAGIC)
  ∧ match readable_bytes src with
    | None => isELFFile src = false
    | Some bytes => length bytes < 4 → isELFFile src = false
    end.
Proof.
  destruct src as [|data fault]; simpl.
  - split; [|done]. split; [done|]. by intros (? & [=] & _).
  - unfold isELFFile, ifstream_read. simpl.
    destruct (deliverable data fault) as [|h0 [|h1 [|h2 [|h3 rest]]]] eqn:Hd; simpl;
      try (destruct (breaks data fault); simpl;
           (split; [split; [done|]; intros (? & [= <-] & Hlen & _); simpl in Hlen; lia | done])).
    split; [|lia].
    rewrite !andb_true_iff, !byte_eqb_eq. split.
    + intros [[[-> ->] ->] ->]. eexists. split; [done|]. split; [simpl; lia|done].
    + intros (? & [= <-] & _ & [= -> -> -> ->]). done.
Qed.

(** C9: a call on a non-empty signature creates one buffer of
    [max(4096, len(S) + 1024) + (len(S) - 1)] bytes, whatever the file holds
    (none when the file cannot be opened), and every read asks for
    [max(4096, len(S) + 1024)] bytes, placed inside that buffer. *)
Theorem C9_bounded_working_buffer (src : source) (S : list byte) :
  S ≠ [] →
  let chunk := Nat.max 4096 (length S + 1024) in
  let evs := snd (containsSignatureBuffered src S) in
  allocations evs = match readable_bytes src with
                    | Some _ => [chunk + (length S - 1)]
                    | None => []
                    end
  ∧ Forall (λ '(offset, request),
              request = chunk ∧ offset + request ≤ chunk + (length S - 1))
           (read_requests evs).
Proof.
  intros Hne chunk evs.
  pose proof (containsSignatureBuffered_spec src S Hne) as H.
  subst evs. destruct src as [|data fault]; cbn [readable_bytes]; cycle 1.
  - destruct H as (evs & -> & Hevs & _). simpl. split.
    + f_equal. unfold allocations.
      induction Hevs as [|ev evs Hev _ IH]; [done|].
      destruct ev; simpl in *; done.
    + unfold read_requests.
      induction Hevs as [|ev evs Hev _ IH]; [done|].
      destruct ev; simpl in *; try done.
      constructor; [|done]. destruct Hev as [-> ->].
      fold chunk. unfold chunk_size, MIN_BUFFER_SIZE, EXTRA_BUFFER. lia.
  - rewrite H. simpl. split; [done|constructor].
Qed.

Lemma C9_bounded_working_buffer_witness :
  let evs := snd (containsSignatureBuffered (Readable infected_cross_boundary None) SIGNATURE) in
  allocations evs = [4101]
  ∧ Forall (λ '(offset, request), request = 4096 ∧ offset + request ≤ 4101)
           (read_requests evs).
Proof.
  apply (C9_bounded_working_buffer (Readable infected_cross_boundary None) SIGNATURE).
  discriminate.
Defined.

(** C10: for a non-empty signature the call returns a boolean without ever
    forming an iterator outside the buffer.  The first pass starts with
    [bytesRead = 0] and every later pass with [bytesRead] equal to the chunk
    size, so the branch for [0 < bytesRead < OVERLAP] is never taken, and
    every [std::copy] of the carry-over has its source and destination
    ranges inside the buffer. *)
Theorem C10_partial_carry_unreachable (src : source) (S : list byte) :
  S ≠ [] →
  let chunk := Nat.max 4096 (length S + 1024) in
  let call := containsSignatureBuffered src S in
  (∃ b, fst call = Ok b)
  ∧ (CarryPartial ∉ carry_branches (snd call))
  ∧ (∃ passes, carry_reads (snd call)
               = match readable_bytes src with
                 | Some _ => 0 :: replicate passes chunk
                 | None => []
                 end)
  ∧ Forall (λ '(first, last, dst),
              copy_in_bounds (chunk + (length S - 1)) first last dst = true)
           (copies (snd call)).
Proof.
  intros Hne chunk call.
  pose proof (containsSignatureBuffered_spec src S Hne) as H.
  subst call. destruct src as [|data fault]; cbn [readable_bytes]; cycle 1.
  - destruct H as (evs & -> & Hevs & passes & Hreads). simpl. split_and!.
    + eauto.
    + unfold carry_branches. simpl.
      clear Hreads. induction Hevs as [|ev evs Hev _ IH]; [apply not_elem_of_nil|].
      destruct ev; simpl in *; try done.
      apply not_elem_of_cons. split; [|done]. destruct Hev as [Hbr _]. congruence.
    + exists passes. exact Hreads.
    + unfold copies. simpl. clear Hreads.
      induction Hevs as [|ev evs Hev _ IH]; [done|].
      destruct ev; simpl in *; try done.
      constructor; [|done]. exact Hev.
  - rewrite H. simpl. split_and!; [eauto|apply not_elem_of_nil|by exists 0|constructor].
Qed.

Lemma C10_partial_carry_unreachable_witness :
  let call := containsSignatureBuffered (Readable infected_cross_boundary None) SIGNATURE in
  (∃ b, fst call = Ok b)
  ∧ (CarryPartial ∉ carry_branches (snd call))
  ∧ (∃ passes, carry_reads (snd call) = 0 :: replicate passes 4096)
  ∧ Forall (λ '(first, last, dst), copy_in_bounds 4101 first last dst = true)
           (copies (snd call)).
Proof.
  apply (C10_partial_carry_unreachable (Readable infected_cross_boundary None) SIGNATURE).
  discriminate.
Defined.

(** ** The files of the repository's test suite *)

Example test_clean : detects (make_elf_with [] 512) = Ok false.
Proof. vm_compute. reflexivity. Qed.

Example test_infected_middle : detects (make_elf_with SIGNATURE 200) = Ok true.
Proof. vm_compute. reflexivity. Qed.

Example test_infected_start : detects (make_elf_with SIGNATURE 0) = Ok true.
Proof. vm_compute. reflexivity. Qed.

Example test_infected_end : detects (make_elf_with SIGNATURE (512 - 6)) = Ok true.
Proof. vm_compute. reflexivity. Qed.

Example test_infected_cross_boundary : detects infected_cross_boundary = Ok true.
Proof. vm_compute. reflexivity. Qed.

Example test_partial_signature : detects (make_elf_with ["c"; "r"; "y"]%byte 200) = Ok false.
Proof. vm_compute. reflexivity. Qed.

Example test_empty : detects [] = Ok false ∧ isELFFile (Readable [] None) = false.
Proof. split; vm_compute; reflexivity. Qed.

Example test_huge_file : detects huge_file = Ok true.
Proof. vm_compute. reflexivity. Qed.

Example test_signature_in_non_elf : isELFFile (Readable SIGNATURE None) = false.
Proof. reflexivity. Qed.

Example test_malformed_elf : isELFFile (Readable ("~"%byte :: replicate 511 x00) None) = false.
Proof. reflexivity. Qed.

(** * Proofs: the pool *)

Lemma held_insert ws i w w' :
  ws !! i = Some w →
  held (<[i := w']> ws) ++ in_flight w ≡ₚ in_flight w' ++ held ws.
Proof.
  unfold held. revert i. induction ws as [|x ws IH]; intros [|i] H; simplify_eq/=.
  - rewrite <- app_assoc. rewrite (Permutation_app_comm (ws ≫= in_flight)). 
    by rewrite app_assoc.
  - rewrite <- app_assoc, (IH _ H). rewrite !app_assoc.
    by rewrite (Permutation_app_comm (in_flight x)).
Qed.

Lemma held_insert_idle ws i w w' :
  ws !! i = Some w → in_flight w = [] → in_flight w' = [] →
  held (<[i := w']> ws) ≡ₚ held ws.
Proof.
  intros H Hw Hw'. pose proof (held_insert ws i w w' H) as Hp.
  by rewrite Hw, Hw', app_nil_r in Hp.
Qed.

Lemma held_wake ws : held (wake <$> ws) = held ws.
Proof.
  unfold held. induction ws as [|w ws IH]; [done|].
  rewrite fmap_cons, !bind_cons, IH. by destruct w.
Qed.

Lemma held_all_exited ws :
  (∀ i, i < length ws → ws !! i = Some WExited) → held ws = [].
Proof.
  unfold held. induction ws as [|w ws IH]; intros H; [done|].
  rewrite bind_cons.
  pose proof (H 0 ltac:(simpl; lia)) as H0. simplify_eq/=.
  apply IH. intros i Hi. apply (H (S i)). simpl. lia.
Qed.

Lemma lookup_wake_exited (ws : list worker_pc) (i : nat) :
  (wake <$> ws) !! i = Some WExited ↔ ws !! i = Some WExited.
Proof.
  rewrite list_lookup_fmap. destruct (ws !! i) as [[]|]; simpl; naive_solver.
Qed.

Lemma lookup_insert_exited (ws : list worker_pc) i j w w' :
  ws !! i = Some w → w ≠ WExited →
  ws !! j = Some WExited → <[i := w']> ws !! j = Some WExited.
Proof.
  intros Hi Hw Hj. destruct (decide (i = j)) as [->|Hne]; [congruence|].
  by rewrite list_lookup_insert_ne.
Qed.

Lemma lookup_insert_exited_inv (ws : list worker_pc) i j w' :
  w' ≠ WExited →
  <[i := w']> ws !! j = Some WExited → ws !! j = Some WExited.
Proof.
  intros Hw. destruct (decide (i = j)) as [->|Hne].
  - destruct (decide (j < length ws)).
    + rewrite list_lookup_insert_eq by done. congruence.
    + by rewrite list_insert_ge by lia.
  - by rewrite list_lookup_insert_ne.
Qed.

Lemma numbered_snoc units t :
  numbered (units ++ [t]) = numbered units ++ [(length units, t)].
Proof. unfold numbered. rewrite imap_app. simpl. by rewrite Nat.add_0_r. Qed.

Lemma numbered_numbers units : (numbered units).*1 = seq 0 (length units).
Proof.
  induction units as [|t units IH] using rev_ind; [done|].
  rewrite numbered_snoc, fmap_app, IH, length_app, Nat.add_1_r, seq_S. done.
Qed.

Lemma numbered_tasks units : (numbered units).*2 = units.
Proof.
  induction units as [|t units IH] using rev_ind; [done|].
  by rewrite numbered_snoc, fmap_app, IH.
Qed.

Lemma pool_created_inv units threadCount printed :
  pool_inv units (pool_created threadCount printed).
Proof.
  split; simpl; try done.
  - lia.
  - replace (held (replicate threadCount WLock)) with (@nil (nat * task)); [done|].
    unfold held. induction threadCount as [|n IH]; [done|].
    simpl replicate. by rewrite bind_cons, <- IH.
  - by intros i [? _]%lookup_replicate.
Qed.

Lemma notify_one_cases pick s s' :
  notify_one pick s = Some s' →
  s' = s ∨ (workers s !! pick = Some WBlocked ∧ s' = set_worker pick WLock s).
Proof.
  unfold notify_one. intros H.
  destruct (workers s !! pick) as [[]|] eqn:Hw;
    try (destruct (existsb is_blocked (workers s)); simplify_eq; by left).
  simplify_eq. by right.
Qed.

Lemma main_step_inv units pick s s' :
  pool_inv units s → main_step units pick s = Some s' → pool_inv units s'.
Proof.
  intros [Hsub Hnot Hacc Hstop Hex Hjoin] Hstep. unfold main_step in Hstep.
  assert (Hidle : ¬ shutting_down (pc s) → ∀ i, workers s !! i = Some WExited → False).
  { intros Hsd i Hi. destruct (Hex i Hi) as [Hs _]. auto. }
  destruct (pc s) as [next|next| | | | |j|] eqn:Hpc; st_simpl.
  - (* MSubmit *)
    destruct (units !! next) as [t|] eqn:Hunit.
    + destruct (mutex s); simplify_eq.
      pose proof (lookup_lt_Some _ _ _ Hunit) as Hlt.
      split; st_simpl; try done;
        try (intros i Hi; by destruct (Hidle id i Hi)).
      * by intros ? [= <-].
      * rewrite (take_S_r _ _ t) by done. rewrite numbered_snoc, length_take_le by lia.
        rewrite !app_assoc. apply Permutation_app_tail. by rewrite <- app_assoc.
    + simplify_eq. apply lookup_ge_None in Hunit.
      split; st_simpl; try done.
      by replace (length units) with next by lia.
  - (* MNotify *)
    destruct (notify_one pick s) as [s1|] eqn:Hn; simplify_eq/=.
    pose proof (Hnot next eq_refl) as Hlt.
    apply notify_one_cases in Hn. destruct Hn as [->|[Hw ->]].
    + split; st_simpl; try done.
    + split; st_simpl; try done.
      * by rewrite (held_insert_idle _ _ _ _ Hw).
      * intros i Hi. apply lookup_insert_exited_inv in Hi; [|done].
        by destruct (Hidle id i Hi).
  - (* MReport *)
    simplify_eq. split; st_simpl; done.
  - (* MPause *)
    simplify_eq. split; st_simpl; done.
  - (* MStop *)
    simplify_eq. split; st_simpl; try done.
    intros i Hi. by destruct (Hidle id i Hi).
  - (* MNotifyAll *)
    simplify_eq. split; st_simpl; try done.
    + by rewrite held_wake.
    + intros i Hi. apply (proj1 (lookup_wake_exited _ _)) in Hi. by apply (Hex i).
    + intros i Hi. lia.
  - (* MJoin *)
    destruct (workers s !! j) as [w|] eqn:Hw.
    + destruct w; simplify_eq. split; st_simpl; try done.
      intros i Hi. destruct (decide (i = j)) as [->|]; [done|]. apply Hjoin. lia.
    + simplify_eq. apply lookup_ge_None in Hw. split; st_simpl; try done.
      intros i Hi. apply Hjoin. lia.
  - done.
Qed.

Lemma joined_insert p (ws : list worker_pc) k w w' :
  ws !! k = Some w → w ≠ WExited → joined p ws → joined p (<[k := w']> ws).
Proof.
  intros Hk Hw. destruct p as [| | | | | |j|]; simpl; try done.
  - intros H i Hi. eapply lookup_insert_exited; eauto.
  - intros H i Hi. rewrite length_insert in Hi. eapply lookup_insert_exited; eauto.
Qed.

Lemma worker_step_pc i s s' : worker_step i s = Some s' → pc s' = pc s.
Proof.
  unfold worker_step. intros H.
  destruct (workers s !! i) as [[| | | | |n t| |]|]; try done.
  - destruct (mutex s); by simplify_eq.
  - destruct (stop s || negb (bool_decide (tasks s = []))); by simplify_eq.
  - by simplify_eq.
  - by simplify_eq.
  - destruct (stop s && bool_decide (tasks s = [])); [by simplify_eq|].
    destruct (tasks s) as [|[] ?]; by simplify_eq.
  - destruct (ending t); by simplify_eq.
Qed.

Lemma worker_step_inv units i s s' :
  pool_inv units s → worker_step i s = Some s' → pool_inv units s'.
Proof.
  intros [Hsub Hnot Hacc Hstop Hex Hjoin] Hstep. unfold worker_step in Hstep.
  destruct (workers s !! i) as [w|] eqn:Hw; [|done].
  assert (Hkeep : ∀ w' j, w ≠ WExited → w' ≠ WExited →
            <[i := w']> (workers s) !! j = Some WExited → stop s = true ∧ tasks s = []).
  { intros w' j _ Hw' Hj. apply lookup_insert_exited_inv in Hj; [|done]. by apply (Hex j). }
  destruct w as [| | | | |n t| |]; try done.
  - (* WLock *)
    destruct (mutex s); simplify_eq.
    split; st_simpl; try done.
    + by rewrite (held_insert_idle _ _ _ _ Hw).
    + intros j Hj. by apply (Hkeep WWait j).
    + by apply (joined_insert _ _ _ WLock).
  - (* WWait *)
    destruct (stop s || negb (bool_decide (tasks s = []))); simplify_eq.
    + split; st_simpl; try done.
      * by rewrite (held_insert_idle _ _ _ _ Hw).
      * intros j Hj. by apply (Hkeep WCheck j).
      * by apply (joined_insert _ _ _ WWait).
    + split; st_simpl; try done.
      * by rewrite (held_insert_idle _ _ _ _ Hw).
      * intros j Hj. by apply (Hkeep WSleep j).
      * by apply (joined_insert _ _ _ WWait).
  - (* WSleep *)
    simplify_eq. split; st_simpl; try done.
    + by rewrite (held_insert_idle _ _ _ _ Hw).
    + intros j Hj. by apply (Hkeep WBlocked j).
    + by apply (joined_insert _ _ _ WSleep).
  - (* WBlocked *)
    simplify_eq. split; st_simpl; try done.
    + by rewrite (held_insert_idle _ _ _ _ Hw).
    + intros j Hj. by apply (Hkeep WLock j).
    + by apply (joined_insert _ _ _ WBlocked).
  - (* WCheck *)
    destruct (stop s && bool_decide (tasks s = [])) eqn:Hdone.
    + simplify_eq. apply andb_true_iff in Hdone as [Hs Hq].
      apply bool_decide_eq_true in Hq.
      split; st_simpl; try done.
      * by rewrite (held_insert_idle _ _ _ _ Hw).
      * by apply (joined_insert _ _ _ WCheck).
    + destruct (tasks s) as [|[n t] rest] eqn:Hq; simplify_eq.
      * split; st_simpl; rewrite ?Hq; try done.
        -- by rewrite (held_insert_idle _ _ _ _ Hw).
        -- intros j Hj. by apply (Hkeep WCrashed j).
        -- by apply (joined_insert _ _ _ WCheck).
      * split; st_simpl; try done.
        -- pose proof (held_insert (workers s) i WCheck (WRun n t) Hw) as Hp.
           simpl in Hp. rewrite app_nil_r in Hp. rewrite Hp.
           rewrite <- Hacc. simpl.
           apply Permutation_app_head. apply Permutation_middle.
        -- intros j Hj. apply lookup_insert_exited_inv in Hj; [|done].
           by destruct (Hex j Hj) as [_ Hempty].
        -- by apply (joined_insert _ _ _ WCheck).
  - (* WRun *)
    assert (Hq : ∀ w', in_flight w' = [] →
              (ran s ++ [(i, (n, t))]).*2 ++ held (<[i := w']> (workers s)) ++ tasks s
              ≡ₚ numbered (take (submitted units (pc s)) units)).
    { intros w' Hw'. pose proof (held_insert (workers s) i (WRun n t) w' Hw) as Hp.
      rewrite Hw' in Hp. simpl in Hp.
      rewrite <- Hacc, fmap_app. simpl. rewrite <- !app_assoc.
      apply Permutation_app_head. rewrite <- Hp.
      rewrite <- !app_assoc. simpl. apply Permutation_middle. }
    destruct (ending t); simplify_eq; split; st_simpl; try done;
      try (by apply Hq);
      try (by apply (joined_insert _ _ _ (WRun n t)));
      intros j Hj; (by apply (Hkeep WLock j)) || (by apply (Hkeep WCrashed j)).
Qed.

Lemma step_inv units a s s' : pool_inv units s → step units a s = Some s' → pool_inv units s'.
Proof. destruct a; [apply main_step_inv | apply worker_step_inv]. Qed.

Lemma run_inv units schedule s s' :
  pool_inv units s → run units schedule s = Some s' → pool_inv units s'.
Proof.
  revert s. induction schedule as [|a schedule IH]; intros s Hinv Hrun; simpl in Hrun.
  - by simplify_eq.
  - destruct (step units a s) as [s1|] eqn:Hstep; [|done].
    eapply IH; [|done]. by eapply step_inv.
Qed.

Lemma reachable_inv units threadCount printed s :
  reachable units threadCount printed s → pool_inv units s.
Proof. intros [schedule Hrun]. eapply run_inv; [|done]. apply pool_created_inv. Qed.

Lemma step_workers_length units a s s' :
  step units a s = Some s' → length (workers s') = length (workers s).
Proof.
  destruct a as [pick|i]; simpl.
  - unfold main_step. intros H.
    destruct (pc s) as [next|next| | | | |j|]; st_simpl.
    + destruct (units !! next); [destruct (mutex s)|]; by simplify_eq.
    + destruct (notify_one pick s) as [s1|] eqn:Hn; simplify_eq/=.
      apply notify_one_cases in Hn as [->|[_ ->]]; [done|]. apply length_insert.
    + by simplify_eq.
    + by simplify_eq.
    + by simplify_eq.
    + simplify_eq. st_simpl. apply length_fmap.
    + destruct (workers s !! j) as [[]|]; by simplify_eq.
    + done.
  - unfold worker_step. intros H.
    destruct (workers s !! i) as [[| | | | |n t| |]|]; try done.
    + destruct (mutex s); simplify_eq. apply length_insert.
    + destruct (stop s || negb (bool_decide (tasks s = []))); simplify_eq; apply length_insert.
    + simplify_eq. apply length_insert.
    + simplify_eq. apply length_insert.
    + destruct (stop s && bool_decide (tasks s = [])); [simplify_eq; apply length_insert|].
      destruct (tasks s) as [|[] ?]; simplify_eq; apply length_insert.
    + destruct (ending t); simplify_eq; apply length_insert.
Qed.

Lemma run_workers_length units schedule s s' :
  run units schedule s = Some s' → length (workers s') = length (workers s).
Proof.
  revert s. induction schedule as [|a schedule IH]; intros s Hrun; simpl in Hrun.
  - by simplify_eq.
  - destruct (step units a s) as [s1|] eqn:Hstep; [|done].
    rewrite (IH _ Hrun). by eapply step_workers_length.
Qed.

(** ** The mutex and the wait predicate keep the workers out of trouble *)

Lemma pool_created_lock_inv threadCount printed :
  lock_inv (pool_created threadCount printed).
Proof.
  split; simpl.
  - by intros i w [-> _]%lookup_replicate.
  - by intros i [? _]%lookup_replicate.
  - by intros i [? _]%lookup_replicate.
  - intros n t H. by apply elem_of_nil in H.
  - by intros i n t [? _]%lookup_replicate.
Qed.

Lemma main_step_lock_inv units pick s s' :
  Forall well_behaved units →
  lock_inv s → main_step units pick s = Some s' → lock_inv s'.
Proof.
  intros Hunits [Hheld Hchk Halive Hqueued Hrunning] Hstep. unfold main_step in Hstep.
  assert (Hwoken : ∀ ws : list worker_pc, ∀ j w,
            (wake <$> ws) !! j = Some w → w ≠ WLock → ws !! j = Some w).
  { intros ws j w. rewrite list_lookup_fmap.
    destruct (ws !! j) as [[]|]; simpl; intros; by simplify_eq. }
  destruct (pc s) as [next|next| | | | |j|] eqn:Hpc; st_simpl.
  - destruct (units !! next) as [t|] eqn:Hunit.
    + destruct (mutex s) eqn:Hm; simplify_eq.
      split; st_simpl; rewrite ?Hm; try done.
      * intros i Hi. destruct (Hchk i Hi) as [?|?]; [by left|right].
        by destruct (tasks s).
      * intros n t' [H|H]%elem_of_app; [by eapply Hqueued|].
        apply list_elem_of_singleton in H. simplify_eq.
        eapply Forall_lookup_1 in Hunits; done.
    + simplify_eq. split; st_simpl; done.
  - destruct (notify_one pick s) as [s1|] eqn:Hn; simplify_eq/=.
    apply notify_one_cases in Hn. destruct Hn as [->|[Hw ->]].
    + split; st_simpl; done.
    + split; st_simpl; try done.
      * intros i w [(-> & <- & _)|[_ Hi]]%list_lookup_insert_Some Hh; [done|].
        by eapply Hheld.
      * intros i [(_ & ? & _)|[_ Hi]]%list_lookup_insert_Some; [done|]. by apply (Hchk i).
      * intros i [(_ & ? & _)|[_ Hi]]%list_lookup_insert_Some; [done|]. by eapply Halive.
      * intros i n t [(_ & ? & _)|[_ Hi]]%list_lookup_insert_Some; [done|].
        by eapply Hrunning.
  - simplify_eq. split; st_simpl; done.
  - simplify_eq. split; st_simpl; done.
  - simplify_eq. split; st_simpl; try done. intros i Hi. by left.
  - simplify_eq. split; st_simpl; try done.
    + intros i w Hi Hh. apply Hwoken in Hi; [|by destruct w]. by eapply Hheld.
    + intros i Hi. apply Hwoken in Hi; [|done]. by apply (Hchk i).
    + intros i Hi. apply Hwoken in Hi; [|done]. by eapply Halive.
    + intros i n t Hi. apply Hwoken in Hi; [|done]. by eapply Hrunning.
  - destruct (workers s !! j) as [[]|]; simplify_eq; split; st_simpl; done.
  - done.
Qed.

Lemma worker_step_lock_inv i s s' :
  lock_inv s → worker_step i s = Some s' → lock_inv s'.
Proof.
  intros [Hheld Hchk Halive Hqueued Hrunning] Hstep. unfold worker_step in Hstep.
  destruct (workers s !! i) as [w|] eqn:Hw; [|done].
  assert (Hsole : holds_mutex w = true →
            ∀ j w', workers s !! j = Some w' → holds_mutex w' = true → j = i).
  { intros Hh j w' Hj Hh'. pose proof (Hheld i w Hw Hh). pose proof (Hheld j w' Hj Hh').
    congruence. }
  destruct w as [| | | | |n t| |]; try done.
  - (* WLock *)
    destruct (mutex s) eqn:Hm; simplify_eq.
    split; st_simpl; rewrite ?Hm.
    + intros j w [(-> & <- & _)|[_ Hj]]%list_lookup_insert_Some Hh; [done|].
      pose proof (Hheld j w Hj Hh). congruence.
    + intros j [(_ & ? & _)|[_ Hj]]%list_lookup_insert_Some; [done|]. by apply (Hchk j).
    + intros j [(_ & ? & _)|[_ Hj]]%list_lookup_insert_Some; [done|]. by eapply Halive.
    + done.
    + intros j n t [(_ & ? & _)|[_ Hj]]%list_lookup_insert_Some; [done|]. by eapply Hrunning.
  - (* WWait *)
    destruct (stop s || negb (bool_decide (tasks s = []))) eqn:Hpred; simplify_eq.
    + split; st_simpl.
      * intros j w [(-> & <- & _)|[_ Hj]]%list_lookup_insert_Some Hh; [|by eapply Hheld].
        by eapply Hheld.
      * intros j [(_ & _ & _)|[_ Hj]]%list_lookup_insert_Some; [|by apply (Hchk j)].
        apply orb_true_iff in Hpred as [?|Hq]; [by left|right].
        by apply negb_true_iff, bool_decide_eq_false in Hq.
      * intros j [(_ & ? & _)|[_ Hj]]%list_lookup_insert_Some; [done|]. by eapply Halive.
      * done.
      * intros j n t [(_ & ? & _)|[_ Hj]]%list_lookup_insert_Some; [done|]. by eapply Hrunning.
    + split; st_simpl.
      * intros j w [(-> & <- & _)|[_ Hj]]%list_lookup_insert_Some Hh; [|by eapply Hheld].
        by eapply Hheld.
      * intros j [(_ & ? & _)|[_ Hj]]%list_lookup_insert_Some; [done|]. by apply (Hchk j).
      * intros j [(_ & ? & _)|[_ Hj]]%list_lookup_insert_Some; [done|]. by eapply Halive.
      * done.
      * intros j n t [(_ & ? & _)|[_ Hj]]%list_lookup_insert_Some; [done|]. by eapply Hrunning.
  - (* WSleep *)
    simplify_eq. split; st_simpl.
    + intros j w [(-> & <- & _)|[Hne Hj]]%list_lookup_insert_Some Hh; [done|].
      destruct Hne. symmetry. by eapply (Hsole eq_refl).
    + intros j [(_ & ? & _)|[_ Hj]]%list_lookup_insert_Some; [done|]. by apply (Hchk j).
    + intros j [(_ & ? & _)|[_ Hj]]%list_lookup_insert_Some; [done|]. by eapply Halive.
    + done.
    + intros j n t [(_ & ? & _)|[_ Hj]]%list_lookup_insert_Some; [done|]. by eapply Hrunning.
  - (* WBlocked *)
    simplify_eq. split; st_simpl.
    + intros j w [(-> & <- & _)|[_ Hj]]%list_lookup_insert_Some Hh; [done|]. by eapply Hheld.
    + intros j [(_ & ? & _)|[_ Hj]]%list_lookup_insert_Some; [done|]. by apply (Hchk j).
    + intros j [(_ & ? & _)|[_ Hj]]%list_lookup_insert_Some; [done|]. by eapply Halive.
    + done.
    + intros j n t [(_ & ? & _)|[_ Hj]]%list_lookup_insert_Some; [done|]. by eapply Hrunning.
  - (* WCheck *)
    destruct (stop s && bool_decide (tasks s = [])) eqn:Hdone.
    + simplify_eq. split; st_simpl.
      * intros j w [(-> & <- & _)|[Hne Hj]]%list_lookup_insert_Some Hh; [done|].
        destruct Hne. symmetry. by eapply (Hsole eq_refl).
      * intros j [(_ & ? & _)|[_ Hj]]%list_lookup_insert_Some; [done|]. by apply (Hchk j).
      * intros j [(_ & ? & _)|[_ Hj]]%list_lookup_insert_Some; [done|]. by eapply Halive.
      * done.
      * intros j n t [(_ & ? & _)|[_ Hj]]%list_lookup_insert_Some; [done|]. by eapply Hrunning.
    + destruct (tasks s) as [|[n t] rest] eqn:Hq.
      * (* the queue cannot be empty here *)
        exfalso. destruct (Hchk i Hw) as [Hs|Hne]; [|done].
        rewrite Hs in Hdone. by rewrite bool_decide_eq_true_2 in Hdone.
      * simplify_eq. split; st_simpl.
        -- intros j w [(-> & <- & _)|[Hne Hj]]%list_lookup_insert_Some Hh; [done|].
           destruct Hne. symmetry. by eapply (Hsole eq_refl).
        -- intros j [(_ & ? & _)|[Hne Hj]]%list_lookup_insert_Some; [done|].
           destruct Hne. symmetry. by eapply (Hsole eq_refl).
        -- intros j [(_ & ? & _)|[_ Hj]]%list_lookup_insert_Some; [done|]. by eapply Halive.
        -- intros n' t' H. apply (Hqueued n' t'). by apply list_elem_of_further.
        -- intros j n' t' [(_ & ? & _)|[_ Hj]]%list_lookup_insert_Some; [|by eapply Hrunning].
           simplify_eq. apply (Hqueued n' t'). apply list_elem_of_here.
  - (* WRun *)
    pose proof (Hrunning i n t Hw) as Hgood. unfold well_behaved in Hgood.
    destruct (ending t); try done; simplify_eq; split; st_simpl; try done.
    all: try (intros j w [(-> & <- & _)|[_ Hj]]%list_lookup_insert_Some Hh; [done|];
              by eapply Hheld).
    all: try (intros j [(_ & ? & _)|[_ Hj]]%list_lookup_insert_Some; [done|];
              (by apply (Hchk j)) || (by eapply Halive)).
    all: intros j n' t' [(_ & ? & _)|[_ Hj]]%list_lookup_insert_Some; [done|];
      by eapply Hrunning.
Qed.

(** With tasks that return or throw, no execution drives a worker into
    undefined behaviour: in particular [tasks.front()] is never called on
    an empty queue. *)
Lemma run_lock_inv units schedule s s' :
  Forall well_behaved units →
  lock_inv s → run units schedule s = Some s' → lock_inv s'.
Proof.
  intros Hunits. revert s.
  induction schedule as [|a schedule IH]; intros s Hinv Hrun; simpl in Hrun.
  - by simplify_eq.
  - destruct (step units a s) as [s1|] eqn:Hstep; [|done].
    eapply IH; [|done]. destruct a; simpl in Hstep.
    + by eapply main_step_lock_inv.
    + by eapply worker_step_lock_inv.
Qed.


(** When [main] has returned and there was a worker, nothing is left in the
    queue or in the hands of a worker. *)
Lemma pool_drained_at_exit units threadCount printed s :
  1 ≤ threadCount →
  reachable units threadCount printed s →
  pc s = MExit →
  (ran s).*2 ≡ₚ numbered units ∧ tasks s = [] ∧ held (workers s) = [].
Proof.
  intros Hn Hr Hpc.
  assert (Hlen : length (workers s) = threadCount).
  { destruct Hr as [schedule Hrun]. apply run_workers_length in Hrun.
    rewrite Hrun. simpl. apply length_replicate. }
  apply reachable_inv in Hr. destruct Hr as [_ _ Hacc _ Hex Hjoin].
  rewrite Hpc in Hjoin, Hacc. simpl in Hjoin, Hacc.
  destruct (Hex 0) as [_ Hq]; [apply Hjoin; lia|].
  pose proof (held_all_exited _ Hjoin) as Hheld.
  rewrite Hq, Hheld, !app_nil_r, take_ge in Hacc by done. done.
Qed.

(** ** The sink *)



(** ** The destructor can return *)

Lemma run_app units sched1 sched2 s :
  run units (sched1 ++ sched2) s = run units sched1 s ≫= run units sched2.
Proof.
  revert s. induction sched1 as [|a sched1 IH]; intros s; simpl; [done|].
  destruct (step units a s); [apply IH|done].
Qed.

Lemma run_app_Some units sched1 sched2 s s1 s2 :
  run units sched1 s = Some s1 → run units sched2 s1 = Some s2 →
  run units (sched1 ++ sched2) s = Some s2.
Proof. intros H1 H2. rewrite run_app, H1. done. Qed.

(** The main thread alone pushes all remaining units. *)
Lemma main_submits_all units m : ∀ k s,
  pc s = MSubmit k → mutex s = None → k + m = length units →
  existsb is_blocked (workers s) = false →
  ∃ s', run units (replicate (2 * m) (Main 0)) s = Some s'
        ∧ pc s' = MSubmit (length units) ∧ mutex s' = None
        ∧ workers s' = workers s ∧ stop s' = stop s.
Proof.
  induction m as [|m IH]; intros k s Hpc Hm Hk Hnb.
  - exists s. simpl. split_and!; try done. rewrite Hpc. f_equal. lia.
  - destruct (lookup_lt_is_Some_2 units k) as [t Ht]; [lia|].
    replace (2 * S m) with (2 + 2 * m) by lia. rewrite replicate_add.
    set (s1 := set_pc (MNotify k) (set_tasks (tasks s ++ [(k, t)]) s)).
    assert (Hn : notify_one 0 s1 = Some s1).
    { unfold notify_one. simpl. rewrite Hnb.
      destruct (workers s !! 0) as [w|] eqn:Hw; [|done].
      destruct w; try done. exfalso.
      apply not_true_iff_false in Hnb. apply Hnb, existsb_exists.
      exists WBlocked. split; [|done]. apply list_elem_of_In, list_elem_of_lookup. eauto. }
    destruct (IH (S k) (set_pc (MSubmit (S k)) s1)) as (s' & Hrun & ? & ? & ? & ?);
      try done; [lia|].
    exists s'. split_and!; try done.
    eapply run_app_Some; [|exact Hrun].
    simpl. unfold main_step at 1. rewrite Hpc, Ht, Hm. fold s1.
    simpl. unfold main_step at 1. simpl. rewrite Hn. done.
Qed.

(** Report, pause and the first two statements of the destructor. *)
Lemma main_starts_shutdown units s :
  pc s = MSubmit (length units) →
  ∃ s', run units (replicate 5 (Main 0)) s = Some s'
        ∧ pc s' = MJoin 0 ∧ stop s' = true ∧ mutex s' = mutex s
        ∧ workers s' = wake <$> workers s.
Proof.
  intros Hpc. eexists. split.
  - simpl. unfold main_step at 1. rewrite Hpc.
    rewrite (lookup_ge_None_2 units (length units)) by done. simpl. done.
  - done.
Qed.

(** One worker empties the queue once [stop] is set. *)
Lemma worker_drains units i q : ∀ s,
  Forall well_behaved units →
  tasks s = q → stop s = true → mutex s = None →
  workers s !! i = Some WLock → lock_inv s →
  ∃ s', run units (replicate (4 * length q) (Worker i)) s = Some s'
        ∧ tasks s' = [] ∧ stop s' = true ∧ mutex s' = None
        ∧ pc s' = pc s ∧ workers s' = workers s.
Proof.
  induction q as [|[n t] q IH]; intros s Hunits Hq Hstop Hm Hw Hinv.
  - exists s. by split_and!.
  - assert (Hi : i < length (workers s)) by (by eapply lookup_lt_Some).
    assert (Hgood : well_behaved t).
    { apply (lock_queued s Hinv n t). rewrite Hq. apply list_elem_of_here. }
    replace (4 * length ((n, t) :: q)) with (4 + 4 * length q) by (simpl; lia).
    rewrite replicate_add.
    assert (Hfour : ∃ s1, run units (replicate 4 (Worker i)) s = Some s1
                      ∧ tasks s1 = q ∧ stop s1 = true ∧ mutex s1 = None
                      ∧ pc s1 = pc s ∧ workers s1 = workers s).
    { simpl. unfold worker_step at 1. rewrite Hw, Hm.
      unfold worker_step at 1. st_simpl. rewrite list_lookup_insert_eq by done.
      rewrite Hstop. simpl.
      unfold worker_step at 1. st_simpl.
      rewrite list_lookup_insert_eq by (by rewrite length_insert).
      rewrite Hstop, Hq. simpl.
      unfold worker_step at 1. st_simpl.
      rewrite list_lookup_insert_eq by (by rewrite !length_insert).
      unfold well_behaved in Hgood.
      destruct (ending t); try done; eexists; (split; [done|]); st_simpl;
        rewrite !list_insert_insert_eq; by rewrite list_insert_id. }
    destruct Hfour as (s1 & Hrun1 & Hq1 & Hstop1 & Hm1 & Hpc1 & Hws1).
    destruct (IH s1) as (s' & Hrun & ? & ? & ? & ? & ?); try done.
    { by rewrite Hws1. }
    { by eapply (run_lock_inv units). }
    exists s'. split_and!; try done; try congruence.
    eapply run_app_Some; done.
Qed.

(** A worker that finds [stop] set and the queue empty returns. *)
Lemma worker_exits units i s :
  tasks s = [] → stop s = true → mutex s = None →
  workers s !! i = Some WLock →
  ∃ s', run units (replicate 3 (Worker i)) s = Some s'
        ∧ tasks s' = [] ∧ stop s' = true ∧ mutex s' = None
        ∧ pc s' = pc s ∧ workers s' = <[i := WExited]> (workers s).
Proof.
  intros Hq Hstop Hm Hw.
  assert (Hi : i < length (workers s)) by (by eapply lookup_lt_Some).
  simpl. unfold worker_step at 1. rewrite Hw, Hm.
  unfold worker_step at 1. st_simpl. rewrite list_lookup_insert_eq by done.
  rewrite Hstop. simpl.
  unfold worker_step at 1. st_simpl.
  rewrite list_lookup_insert_eq by (by rewrite length_insert).
  rewrite Hstop, Hq. simpl.
  eexists. split; [done|]. st_simpl. split_and!; try done.
  by rewrite !list_insert_insert_eq.
Qed.

Lemma workers_exit units k : ∀ s,
  tasks s = [] → stop s = true → mutex s = None →
  k ≤ length (workers s) →
  (∀ j, j < length (workers s) → workers s !! j = Some WLock) →
  ∃ s', run units (exit_schedule k) s = Some s'
        ∧ tasks s' = [] ∧ stop s' = true ∧ mutex s' = None ∧ pc s' = pc s
        ∧ length (workers s') = length (workers s)
        ∧ (∀ j, j < k → workers s' !! j = Some WExited)
        ∧ (∀ j, k ≤ j → workers s' !! j = workers s !! j).
Proof.
  induction k as [|k IH]; intros s Hq Hstop Hm Hk Hall.
  - exists s. split_and!; try done. intros j Hj. lia.
  - destruct (IH s) as (s1 & Hrun1 & Hq1 & Hstop1 & Hm1 & Hpc1 & Hlen1 & Hlow & Hhigh);
      try done; [lia|].
    destruct (worker_exits units k s1) as (s' & Hrun & ? & ? & ? & ? & Hws'); try done.
    { rewrite Hhigh by done. apply Hall. lia. }
    exists s'. split_and!; try done; try congruence.
    + unfold exit_schedule. rewrite seq_S, bind_app.
      eapply run_app_Some; [done|]. simpl. exact Hrun.
    + rewrite Hws', length_insert. done.
    + intros j Hj. rewrite Hws'. destruct (decide (j = k)) as [->|].
      * apply list_lookup_insert_eq. lia.
      * rewrite list_lookup_insert_ne by done. apply Hlow. lia.
    + intros j Hj. rewrite Hws', list_lookup_insert_ne by lia. apply Hhigh. lia.
Qed.

(** The destructor joins workers that have all returned. *)
Lemma main_joins units m : ∀ i s,
  pc s = MJoin i → i + m = length (workers s) →
  (∀ j, j < length (workers s) → workers s !! j = Some WExited) →
  ∃ s', run units (replicate (S m) (Main 0)) s = Some s' ∧ pc s' = MExit.
Proof.
  induction m as [|m IH]; intros i s Hpc Hi Hall.
  - eexists. split.
    + simpl. unfold main_step. rewrite Hpc.
      rewrite lookup_ge_None_2 by lia. done.
    + done.
  - destruct (IH (S i) (set_pc (MJoin (S i)) s)) as (s' & Hrun & Hend); try done.
    { simpl. lia. }
    exists s'. split; [|done].
    change (replicate (S (S m)) (Main 0)) with (Main 0 :: replicate (S m) (Main 0)).
    cbn [run step]. unfold main_step at 1. rewrite Hpc, Hall by lia. exact Hrun.
Qed.

(** Whatever the units and the number of workers, there is an execution in
    which [main] returns. *)
Lemma shutdown_can_return units threadCount printed :
  1 ≤ threadCount → Forall well_behaved units →
  ∃ schedule s,
    run units schedule (pool_created threadCount printed) = Some s ∧ pc s = MExit.
Proof.
  intros Hn Hunits.
  set (s0 := pool_created threadCount printed).
  assert (Hall0 : ∀ j, j < threadCount → workers s0 !! j = Some WLock).
  { intros j Hj. simpl. by apply lookup_replicate_2. }
  assert (Hnb : existsb is_blocked (workers s0) = false).
  { simpl. clear. induction threadCount; [done|]. done. }
  destruct (main_submits_all units (length units) 0 s0) as (s1 & Hrun1 & Hpc1 & Hm1 & Hws1 & Hst1);
    try done.
  destruct (main_starts_shutdown units s1 Hpc1) as (s2 & Hrun2 & Hpc2 & Hst2 & Hm2 & Hws2).
  assert (Hws2' : workers s2 = workers s0).
  { rewrite Hws2, Hws1. simpl. by rewrite fmap_replicate. }
  assert (Hr2 : run units (replicate (2 * length units) (Main 0) ++ replicate 5 (Main 0)) s0
                = Some s2) by (by eapply run_app_Some).
  destruct (worker_drains units 0 (tasks s2) s2) as (s3 & Hrun3 & Hq3 & Hst3 & Hm3 & Hpc3 & Hws3);
    try done.
  { congruence. }
  { rewrite Hws2'. apply Hall0. lia. }
  { eapply run_lock_inv; [done| |exact Hr2]. apply pool_created_lock_inv. }
  destruct (workers_exit units threadCount s3)
    as (s4 & Hrun4 & Hq4 & Hst4 & Hm4 & Hpc4 & Hlen4 & Hlow4 & _); try done.
  { rewrite Hws3, Hws2'. simpl. by rewrite length_replicate. }
  { rewrite Hws3, Hws2'. simpl. rewrite length_replicate. apply Hall0. }
  assert (Hlen : length (workers s4) = threadCount).
  { rewrite Hlen4, Hws3, Hws2'. simpl. apply length_replicate. }
  destruct (main_joins units threadCount 0 s4) as (s5 & Hrun5 & Hpc5).
  { congruence. }
  { by rewrite Hlen. }
  { intros j Hj. apply Hlow4. lia. }
  eexists _, s5. split; [|done].
  eapply run_app_Some; [|exact Hrun5].
  eapply run_app_Some; [|exact Hrun4].
  eapply run_app_Some; [|exact Hrun3]. exact Hr2.
Qed.

(** ** The pool and the orchestrator: claims *)


(** A scan unit returns whatever its file looks like, and writes at most
    the line that reports the file as infected. *)
Lemma scan_file_task view signature path :
  ∃ b, fst (containsSignatureBuffered (at_match view) signature) = Ok b
       ∧ scan_file view signature path
         = {| writes := if isELFFile (at_classify view) && b
                        then [OutInfected path] else [];
              ending := Ok () |}.
Proof.
  destruct (containsSignatureBuffered_returns (at_match view) signature) as [b Hb].
  exists b. split; [done|].
  unfold scan_file, scan_unit, scan_body. rewrite Hb. simpl.
  by destruct (isELFFile (at_classify view)), b.
Qed.

Lemma scan_file_well_behaved view signature path :
  well_behaved (scan_file view signature path).
Proof.
  destruct (scan_file_task view signature path) as (b & _ & ->). done.
Qed.

(** The units [main] submits never drive a worker into undefined
    behaviour. *)
Lemma main_units_well_behaved env argv units s :
  main_startup env argv = Scanning units s → Forall well_behaved units.
Proof.
  unfold main_startup. intros H.
  destruct argv as [|? [|root [|sigf [|]]]]; try done.
  destruct (load_signature _ _ ≫= _) as [signature|[]| |]; try done.
  destruct (regular_files_under env root) as [files|[]| |]; try done.
  simplify_eq. apply Forall_fmap, Forall_forall. intros path _.
  apply scan_file_well_behaved.
Qed.






(** In every execution the line [Scan completed.] has been printed when the
    destructor of the pool has not yet set [stop]. *)
Lemma report_precedes_shutdown units threadCount printed s :
  reachable units threadCount printed s → pc s = MPause → stop s = false.
Proof.
  intros Hr Hpc. apply reachable_inv in Hr. destruct Hr as [_ _ _ Hstop _ _].
  destruct (stop s); [|done]. specialize (Hstop eq_refl). by rewrite Hpc in Hstop.
Qed.

(** The destructor writes [stop] and notifies without holding the mutex.
    A worker that has tested the predicate and not yet blocked misses the
    notification: the main thread then waits in [join] for a worker that
    only a spurious wake-up sets going again. *)
Lemma wakeup_can_be_lost :
  ∃ s, run [] notified_too_early (pool_created 1 []) = Some s
       ∧ pc s = MJoin 0 ∧ stop s = true ∧ workers s = [WBlocked]
       ∧ main_step [] 0 s = None.
Proof. eexists. split; [vm_compute; reflexivity|]. done. Qed.

(** C4 fails on the code: with one infected file and one worker, the main
    thread prints [Scan completed.] while the unit is still in the queue and
    [stop] is unset; the detection is printed after it. *)
Theorem C4_completion_reported_before_scans :
  ∃ units s0 s_report s_end,
    main_startup lone_infected command_line = Scanning units s0
    ∧ run units main_runs_ahead s0 = Some s_report
    ∧ out s_report = [OutScanStarted; OutScanCompleted]
    ∧ stop s_report = false
    ∧ ran s_report = []
    ∧ (tasks s_report).*1 = [0]
    ∧ run units worker_catches_up s_report = Some s_end
    ∧ pc s_end = MExit
    ∧ out s_end = [OutScanStarted; OutScanCompleted; OutInfected "a.out"].
Proof.
  eexists _, _, _, _. split_and!; vm_compute; reflexivity.
Qed.

(** C5: with at least one worker, once the destructor of the pool has
    returned, the calls made by the workers are the submitted units, each
    exactly once. *)
Theorem C5_every_unit_runs_exactly_once (units : list task) (threadCount : nat)
    (printed : list output) (s : state) :
  1 ≤ threadCount →
  reachable units threadCount printed s →
  pc s = MExit →
  (ran s).*2 ≡ₚ numbered units
  ∧ (ran s).*2.*1 ≡ₚ seq 0 (length units) ∧ NoDup (ran s).*2.*1
  ∧ tasks s = [] ∧ held (workers s) = [].
Proof.
  intros Hn Hr Hpc.
  destruct (pool_drained_at_exit units threadCount printed s) as (Hp & ? & ?); try done.
  assert (Hno : (ran s).*2.*1 ≡ₚ seq 0 (length units))
    by (by rewrite Hp, numbered_numbers).
  split_and!; try done. rewrite Hno. apply NoDup_seq.
Qed.

Lemma C5_every_unit_runs_exactly_once_witness :
  let unit0 := scan_file (steady infected_elf) SIGNATURE "a.out" in
  [(0, unit0)] ≡ₚ numbered [unit0]
  ∧ [0] ≡ₚ seq 0 1 ∧ NoDup [0] ∧ @nil (nat * task) = [] ∧ held [WExited] = [].
Proof.
  apply (C5_every_unit_runs_exactly_once
           [scan_file (steady infected_elf) SIGNATURE "a.out"] 1 [OutScanStarted]
           {| pc := MExit; tasks := []; stop := true; mutex := None;
              workers := [WExited];
              out := [OutScanStarted; OutScanCompleted; OutInfected "a.out"];
              ran := [(0, (0, scan_file (steady infected_elf) SIGNATURE "a.out"))] |}).
  - lia.
  - exists (main_runs_ahead ++ worker_catches_up). vm_compute. reflexivity.
  - reflexivity.
Defined.


(** Without a worker ([std::thread::hardware_concurrency()] may return 0)
    the destructor has nobody to join: [main] returns and the unit is still
    in the queue. *)
Lemma no_worker_no_scan :
  ∃ s, run [scan_file (steady infected_elf) SIGNATURE "a.out"] (replicate 8 (Main 0))
         (pool_created 0 []) = Some s
       ∧ pc s = MExit ∧ ran s = [] ∧ (tasks s).*1 = [0].
Proof. eexists. split; [vm_compute; reflexivity|]. done. Qed.








(** C8: an empty signature file makes [main] emit an error and return 1
    before the pool is created, and the matcher itself never reports an
    empty signature as found. *)
Theorem C8_empty_signature_rejected (env : environment) (argv0 root_dir sig_file : string) :
  load_signature (signature_at env sig_file) sig_file = Ok [] →
  main_startup env [argv0; root_dir; sig_file]
  = Exited 1 [OutError "Signature file is empty."]
  ∧ ∀ src, containsSignatureBuffered src [] = (Ok false, []).
Proof.
  intros Hload. split; [|done]. unfold main_startup. by rewrite Hload.
Qed.

Lemma C8_empty_signature_rejected_witness :
  main_startup empty_signature_file command_line
  = Exited 1 [OutError "Signature file is empty."]
  ∧ ∀ src, containsSignatureBuffered src [] = (Ok false, []).
Proof.
  apply (C8_empty_signature_rejected empty_signature_file "find_sig" "root" "sig.sig").
  reflexivity.
Defined.

(** * Further properties: the matcher *)

Lemma read_requests_app evs evs' :
  read_requests (evs ++ evs') = read_requests evs ++ read_requests evs'.
Proof. apply omap_app. Qed.

Lemma carry_over_no_read OVERLAP buffer bytesRead :
  read_requests (snd (carry_over OVERLAP buffer bytesRead)) = [].
Proof. unfold carry_over. by destruct (select_carry OVERLAP bytesRead). Qed.

(** Every pass reads once; a pass that is followed by another has taken a
    full chunk off the stream. *)
Lemma scan_loop_reads signature buffer_size fuel : ∀ st,
  0 < buffer_size →
  length (pending (file st)) < fuel →
  let call := scan_loop fuel signature buffer_size st in
  length (read_requests (snd call)) ≤ length (pending (file st)) / buffer_size + 1
  ∧ (failed (file st) = false → fst call = Ok false →
     length (read_requests (snd call)) = length (pending (file st)) / buffer_size + 1).
Proof.
  induction fuel as [|fuel IH]; intros st Hpos Hfuel; [lia|].
  simpl. destruct (failed (file st)) eqn:Hfail; [simpl; split; [lia|done]|].
  unfold loop_body.
  pose proof (carry_over_no_read (length signature - 1) (buffer st) (bytesRead st)) as Hcarry.
  destruct (carry_over (length signature - 1) (buffer st) (bytesRead st)) as [[carried| | |] evs];
    simpl in Hcarry; try (simpl; rewrite Hcarry; simpl; split; [lia|done]).
  unfold ifstream_read. rewrite Hfail.
  set (got := take buffer_size (pending (file st))).
  assert (Hone : length (read_requests (evs ++ [EvRead (length signature - 1) buffer_size])) = 1).
  { by rewrite read_requests_app, Hcarry. }
  assert (Hgot : length got = length (pending (file st)) `min` buffer_size)
    by (unfold got; rewrite length_take; lia).
  destruct (length got <? buffer_size) eqn:Hshort.
  - (* the last pass: the end of the file or the device error *)
    pose proof Hshort as Hshortb. apply Nat.ltb_lt in Hshort.
    rewrite Nat.div_small by lia.
    destruct (broken (file st)); cbn [andb].
    + destruct (negb _); [simpl; rewrite Hone; split; [lia|done]|].
      cbn [length]. destruct (0 <? buffer_size) eqn:E; [|apply Nat.ltb_ge in E; lia].
      simpl. rewrite Hone. split; [lia|done].
    + destruct (negb _); [simpl; rewrite Hone; split; [lia|done]|].
      rewrite Hshortb. simpl. rewrite Hone. split; [lia|done].
  - apply Nat.ltb_ge in Hshort. cbn [andb].
    assert (Hge : buffer_size ≤ length (pending (file st))) by lia.
    destruct (negb _) eqn:Hfound.
    { simpl. rewrite Hone. split; [lia|done]. }
    destruct (length got <? buffer_size) eqn:Hlt; [apply Nat.ltb_lt in Hlt; lia|].
    set (st' := {| buffer := _; bytesRead := _; file := _ |}).
    destruct (IH st' Hpos) as [Hle Heq].
    { unfold st'. simpl. rewrite length_drop. lia. }
    destruct (scan_loop fuel signature buffer_size st') as [r evs2] eqn:Hrun.
    simpl in *. rewrite read_requests_app, length_app, Hone.
    rewrite length_drop in Hle, Heq. rewrite <- (div_chunk _ buffer_size) by done.
    split; [lia|]. intros _ Hr. rewrite Heq; [lia|done|done].
Qed.

(** X1: for a signature of one byte, or one whose first byte is not zero,
    the buffered search gives the answer of one [std::search] over the bytes
    its reads obtain from the file: the whole file when no read meets a
    device error, and otherwise the full chunks in front of the error, since
    the failing read counts no byte.  The answer is true exactly when the
    signature lies in those bytes. *)
Theorem X1_agrees_with_whole_file_search (data : list byte) (fault : option nat)
    (S : list byte) :
  S ≠ [] →
  length S = 1 ∨ head S ≠ Some x00 →
  let bytes := obtained (chunk_size S) data fault in
  fst (containsSignatureBuffered (Readable data fault) S) = Ok (found bytes S)
  ∧ (found bytes S = true ↔ occurs S bytes)
  ∧ (breaks data fault = false → bytes = data)
  ∧ (∀ n, fault = Some n → n < length data →
       bytes = take (n / chunk_size S * chunk_size S) data).
Proof.
  intros Hne Hhead bytes. split_and!.
  - rewrite containsSignatureBuffered_readable by done. f_equal. fold bytes.
    destruct Hhead as [Hone|Hhead].
    + by rewrite Hone.
    + destruct S as [|s0 sig]; [done|].
      assert (Hs0 : s0 ≠ x00) by (intros ->; by apply Hhead).
      pose proof (containsSignatureBuffered_exact data fault s0 sig Hs0) as Hex.
      rewrite (containsSignatureBuffered_readable data fault (s0 :: sig) Hne) in Hex.
      apply eq_iff_eq_true. etrans; [|symmetry; by apply found_iff].
      etrans; [|exact Hex]. split; [intros H; f_equal; exact H|intros [= H]; exact H].
  - by apply found_iff.
  - unfold bytes, obtained, breaks. destruct fault as [n|]; [|done]. by intros ->.
  - intros n -> Hn. unfold bytes, obtained.
    apply Nat.ltb_lt in Hn. by rewrite Hn.
Qed.

Lemma X1_agrees_with_whole_file_search_witness :
  let bytes := obtained (chunk_size SIGNATURE) infected_cross_boundary (Some 5000) in
  fst (containsSignatureBuffered (Readable infected_cross_boundary (Some 5000)) SIGNATURE)
  = Ok (found bytes SIGNATURE)
  ∧ (found bytes SIGNATURE = true ↔ occurs SIGNATURE bytes)
  ∧ (breaks infected_cross_boundary (Some 5000) = false → bytes = infected_cross_boundary)
  ∧ (∀ n, Some 5000 = Some n → n < length infected_cross_boundary →
       bytes = take (n / chunk_size SIGNATURE * chunk_size SIGNATURE) infected_cross_boundary).
Proof.
  apply (X1_agrees_with_whole_file_search infected_cross_boundary (Some 5000) SIGNATURE).
  - discriminate.
  - right. discriminate.
Defined.

(** X2: for every non-empty signature the call returns.  The answer is
    false when the file cannot be opened, and otherwise true exactly when
    the signature lies in the bytes the reads obtain from the file (the whole
    file, or the full chunks in front of a device error) with [len(S) - 1]
    zero bytes put in front of them. *)
Theorem X2_decides_zero_padded_occurrence (src : source) (S : list byte) :
  S ≠ [] →
  match src with
  | Unopenable => fst (containsSignatureBuffered src S) = Ok false
  | Readable data fault =>
      ∃ b, fst (containsSignatureBuffered src S) = Ok b
           ∧ (b = true
              ↔ occurs S (replicate (length S - 1) x00
                          ++ obtained (chunk_size S) data fault))
  end.
Proof.
  intros Hne. pose proof (containsSignatureBuffered_spec src S Hne) as H.
  destruct src as [|data fault].
  - by rewrite H.
  - destruct H as (evs & -> & _). eexists. split; [done|]. by apply found_iff.
Qed.

Lemma X2_decides_zero_padded_occurrence_witness :
  ∃ b, fst (containsSignatureBuffered (Readable ELF_MAGIC None) (x00 :: ELF_MAGIC)) = Ok b
       ∧ (b = true
          ↔ occurs (x00 :: ELF_MAGIC)
              (replicate (length (x00 :: ELF_MAGIC) - 1) x00
               ++ obtained (chunk_size (x00 :: ELF_MAGIC)) ELF_MAGIC None)).
Proof.
  apply (X2_decides_zero_padded_occurrence (Readable ELF_MAGIC None) (x00 :: ELF_MAGIC)).
  discriminate.
Defined.

(** X3: a detection is kept when bytes are appended to the file. *)
Theorem X3_detection_survives_appending (S B B' : list byte) :
  S ≠ [] →
  fst (containsSignatureBuffered (Readable B None) S) = Ok true →
  fst (containsSignatureBuffered (Readable (B ++ B') None) S) = Ok true.
Proof.
  intros Hne. rewrite !containsSignatureBuffered_readable by done. simpl.
  intros [= H]. f_equal. apply found_iff; [done|]. apply found_iff in H; [|done].
  rewrite app_assoc. by apply occurs_app_l.
Qed.

Lemma X3_detection_survives_appending_witness :
  fst (containsSignatureBuffered (Readable (infected_elf ++ clean_elf) None) SIGNATURE)
  = Ok true.
Proof.
  apply (X3_detection_survives_appending SIGNATURE infected_elf clean_elf).
  - discriminate.
  - vm_compute. reflexivity.
Defined.

(** X4: a call on a file of which [n] bytes can be read (all of it, or the
    part in front of a device error) makes at most [n / chunk + 1] reads,
    and exactly that many when it returns false: the stream is read once,
    chunk by chunk, and never rewound. *)
Theorem X4_reads_are_linear (data : list byte) (fault : option nat) (S : list byte) :
  S ≠ [] →
  let call := containsSignatureBuffered (Readable data fault) S in
  let n := length (deliverable data fault) in
  length (read_requests (snd call)) ≤ n / chunk_size S + 1
  ∧ (fst call = Ok false → length (read_requests (snd call)) = n / chunk_size S + 1).
Proof.
  intros Hne call n. subst call.
  rewrite containsSignatureBuffered_nonempty by done.
  cbn [ifstream_open failed pending].
  set (st0 := {| buffer := _; bytesRead := 0; file := _ |}).
  destruct (scan_loop_reads S (chunk_size S)
              (Datatypes.S (length (deliverable data fault))) st0)
    as [Hle Heq]; [apply chunk_size_positive|simpl; lia|].
  destruct (scan_loop _ S (chunk_size S) st0) as [r evs]. simpl in *.
  split; [done|]. intros Hr. by apply Heq.
Qed.

Lemma X4_reads_are_linear_witness :
  let call := containsSignatureBuffered (Readable clean_elf None) SIGNATURE in
  length (read_requests (snd call)) ≤ 512 / 4096 + 1
  ∧ (fst call = Ok false → length (read_requests (snd call)) = 512 / 4096 + 1).
Proof.
  apply (X4_reads_are_linear clean_elf None SIGNATURE). discriminate.
Defined.

(** * Further properties: [load_signature], the start of [main], the scan unit *)

Lemma load_signature_Ok f path signature :
  load_signature f path = Ok signature
  ↔ ∃ fault, f = SigFile (Readable signature fault) ∧ breaks signature fault = false.
Proof.
  unfold load_signature. split.
  - destruct f as [|[|data fault]]; cbn [ifstream_open failed broken pending]; try done.
    destruct (breaks data fault) eqn:Hbr; [done|].
    assert (Hall : deliverable data fault = data).
    { destruct fault as [n|]; [|done]. cbn [deliverable breaks] in *.
      apply Nat.ltb_ge in Hbr. by rewrite take_ge. }
    rewrite Hall. intros [= <-]. by exists fault.
  - intros (fault & -> & Hbr). cbn [ifstream_open failed broken pending].
    rewrite Hbr. f_equal.
    destruct fault as [n|]; [|done]. cbn [deliverable breaks] in *.
    apply Nat.ltb_ge in Hbr. by rewrite take_ge.
Qed.

Lemma main_startup_scanning env argv units s0 :
  main_startup env argv = Scanning units s0
  ↔ ∃ argv0 root_dir sig_file signature fault files,
      argv = [argv0; root_dir; sig_file]
      ∧ signature_at env sig_file = SigFile (Readable signature fault)
      ∧ breaks signature fault = false ∧ signature ≠ []
      ∧ regular_files_under env root_dir = Ok files
      ∧ units = (λ path, scan_file (file_at env path) signature path) <$> files
      ∧ s0 = pool_created (hardware_concurrency env) [OutScanStarted].
Proof.
  unfold main_startup. split.
  - destruct argv as [|argv0 [|root_dir [|sig_file [|]]]]; try done.
    destruct (load_signature (signature_at env sig_file) sig_file) as [sig|[]| |] eqn:Hload;
      try done; simpl.
    destruct sig as [|s0' sig]; [done|].
    destruct (regular_files_under env root_dir) as [files|[]| |] eqn:Hfiles; try done.
    intros [= <- <-]. apply load_signature_Ok in Hload as (fault & Hsrc & Hbr).
    by eexists argv0, root_dir, sig_file, (s0' :: sig), fault, files.
  - intros (argv0 & root_dir & sig_file & sig & fault & files
            & -> & Hsrc & Hbr & Hne & Hfiles & -> & ->).
    assert (Hload : load_signature (signature_at env sig_file) sig_file = Ok sig).
    { apply load_signature_Ok. eauto. }
    rewrite Hload. simpl. destruct sig; [done|]. by rewrite Hfiles.
Qed.

(** X5: [main] creates the pool exactly when it is given two arguments, the
    signature path is a regular file that opens, is read to its end without
    a device error and holds at least one byte, and the traversal of the
    root succeeds.  The signature is then the content of that file, the pool
    has [hardware_concurrency()] workers and nothing queued, [Scanning
    started] is the only statement executed so far, and there is one unit
    per regular file, in the order of the traversal. *)
Theorem X5_scanning_starts_iff (env : environment) (argv : list string)
    (units : list task) (s0 : state) :
  main_startup env argv = Scanning units s0
  ↔ ∃ argv0 root_dir sig_file signature fault files,
      argv = [argv0; root_dir; sig_file]
      ∧ signature_at env sig_file = SigFile (Readable signature fault)
      ∧ breaks signature fault = false ∧ signature ≠ []
      ∧ regular_files_under env root_dir = Ok files
      ∧ units = (λ path, scan_file (file_at env path) signature path) <$> files
      ∧ s0 = pool_created (hardware_concurrency env) [OutScanStarted].
Proof. apply main_startup_scanning. Qed.

(** X6: when [main] returns without having created the pool its status is
    1 and it has printed one diagnostic: the usage line when the number of
    arguments is not two; the message of the exception when the signature
    cannot be loaded or is empty; [Scanning started] and the traversal error
    when the traversal throws. *)
Theorem X6_failures_exit_with_status_1 (env : environment) (argv : list string)
    (code : Z) (printed : list output) :
  main_startup env argv = Exited code printed →
  code = 1%Z
  ∧ ((length argv ≠ 3 ∧ printed = [OutUsage (default String.EmptyString (head argv))])
     ∨ (∃ argv0 root_dir sig_file what,
          argv = [argv0; root_dir; sig_file] ∧ printed = [OutError what]
          ∧ (load_signature (signature_at env sig_file) sig_file = Throw (StdException what)
             ∨ (load_signature (signature_at env sig_file) sig_file = Ok []
                ∧ what = "Signature file is empty."%string)))
     ∨ (∃ argv0 root_dir sig_file what,
          argv = [argv0; root_dir; sig_file]
          ∧ printed = [OutScanStarted; OutTraverseError what]
          ∧ regular_files_under env root_dir = Throw (StdException what))).
Proof.
  unfold main_startup.
  destruct argv as [|argv0 [|root_dir [|sig_file [|]]]];
    try (intros [= <- <-]; split; [done|]; left; split; [simpl; lia|done]).
  destruct (load_signature (signature_at env sig_file) sig_file) as [sig|[what|]| |] eqn:Hload;
    try done; simpl.
  - destruct sig as [|s0' sig].
    + intros [= <- <-]. split; [done|]. right. left.
      eexists _, _, _, _. split_and!; try done. by right.
    + destruct (regular_files_under env root_dir) as [files|[what|]| |] eqn:Hfiles; try done.
      intros [= <- <-]. split; [done|]. right. right.
      by eexists _, _, _, _.
  - intros [= <- <-]. split; [done|]. right. left.
    eexists _, _, _, _. split_and!; try done. by left.
Qed.

Lemma X6_failures_exit_with_status_1_witness :
  1%Z = 1%Z
  ∧ ((length ["find_sig"%string] ≠ 3
      ∧ [OutUsage "find_sig"] = [OutUsage (default String.EmptyString (head ["find_sig"%string]))])
     ∨ (∃ argv0 root_dir sig_file what,
          ["find_sig"%string] = [argv0; root_dir; sig_file]
          ∧ [OutUsage "find_sig"] = [OutError what]
          ∧ (load_signature (signature_at lone_infected sig_file) sig_file
             = Throw (StdException what)
             ∨ (load_signature (signature_at lone_infected sig_file) sig_file = Ok []
                ∧ what = "Signature file is empty."%string)))
     ∨ (∃ argv0 root_dir sig_file what,
          ["find_sig"%string] = [argv0; root_dir; sig_file]
          ∧ [OutUsage "find_sig"] = [OutScanStarted; OutTraverseError what]
          ∧ regular_files_under lone_infected root_dir = Throw (StdException what))).
Proof.
  apply (X6_failures_exit_with_status_1 lone_infected ["find_sig"%string]).
  reflexivity.
Defined.

Lemma scan_file_reports view signature path :
  scan_file view signature path
  = {| writes := if reports view signature then [OutInfected path] else [];
       ending := Ok () |}.
Proof.
  destruct (scan_file_task view signature path) as (b & Hb & ->).
  unfold reports. by rewrite Hb.
Qed.

(** X7: the unit of a file ends by returning, whatever the file is.  It
    writes the infected line of its path when the file is classified as ELF
    and the matcher returns true, and nothing otherwise: a file that is not
    ELF is not reported whatever it holds, and the line of the handler,
    [Error scanning], is never written. *)
Theorem X7_scan_unit_outcome (view : file_view) (signature : list byte) (path : string) :
  let t := scan_file view signature path in
  ending t = Ok ()
  ∧ writes t = (if reports view signature then [OutInfected path] else [])
  ∧ (reports view signature = true
     ↔ isELFFile (at_classify view) = true
       ∧ fst (containsSignatureBuffered (at_match view) signature) = Ok true)
  ∧ (isELFFile (at_classify view) = false → writes t = []).
Proof.
  intros t. unfold t. rewrite scan_file_reports. simpl. split_and!; try done.
  - unfold reports. rewrite andb_true_iff.
    destruct (containsSignatureBuffered_returns (at_match view) signature) as [b ->].
    split; [by intros [? ->]|by intros [? [= ->]]].
  - intros Hno. unfold reports. by rewrite Hno.
Qed.

(** * Further properties: the pool *)

Lemma step_fifo units a s s' :
  fifo units s → step units a s = Some s' → fifo units s'.
Proof.
  unfold fifo. intros [claimed Hq] Hstep. destruct a as [pick|i]; simpl in Hstep.
  - unfold main_step in Hstep.
    destruct (pc s) as [next|next| | | | |j|] eqn:Hpc; st_simpl.
    + destruct (units !! next) as [t|] eqn:Hunit.
      * destruct (mutex s); simplify_eq. st_simpl.
        pose proof (lookup_lt_Some _ _ _ Hunit) as Hlt.
        exists claimed. rewrite (take_S_r _ _ t) by done.
        rewrite numbered_snoc, length_take_le by lia. by rewrite Hq, app_assoc.
      * simplify_eq. st_simpl. apply lookup_ge_None in Hunit.
        exists claimed. rewrite <- Hq. by rewrite !take_ge by lia.
    + destruct (notify_one pick s) as [s1|] eqn:Hn; simplify_eq/=.
      apply notify_one_cases in Hn as [->|[_ ->]]; by exists claimed.
    + simplify_eq. by exists claimed.
    + simplify_eq. by exists claimed.
    + simplify_eq. by exists claimed.
    + simplify_eq. by exists claimed.
    + destruct (workers s !! j) as [[]|]; simplify_eq; by exists claimed.
    + done.
  - pose proof (worker_step_pc _ _ _ Hstep) as Hpc. rewrite Hpc.
    unfold worker_step in Hstep.
    destruct (workers s !! i) as [[| | | | |n t| |]|]; try done.
    + destruct (mutex s); simplify_eq. by exists claimed.
    + destruct (stop s || negb (bool_decide (tasks s = []))); simplify_eq; by exists claimed.
    + simplify_eq. by exists claimed.
    + simplify_eq. by exists claimed.
    + destruct (stop s && bool_decide (tasks s = [])); [simplify_eq; by exists claimed|].
      destruct (tasks s) as [|[n t] rest] eqn:Htasks; simplify_eq; st_simpl.
      * exists claimed. by rewrite Htasks.
      * exists (claimed ++ [(n, t)]). by rewrite Hq, <- app_assoc.
    + destruct (ending t); simplify_eq; by exists claimed.
Qed.

Lemma run_fifo units schedule s s' :
  fifo units s → run units schedule s = Some s' → fifo units s'.
Proof.
  revert s. induction schedule as [|a schedule IH]; intros s Hinv Hrun; simpl in Hrun.
  - by simplify_eq.
  - destruct (step units a s) as [s1|] eqn:Hstep; [|done].
    eapply IH; [|done]. by eapply step_fifo.
Qed.

Lemma pool_created_fifo units threadCount printed :
  fifo units (pool_created threadCount printed).
Proof. by exists []. Qed.

(** X8: the queue is first in, first out.  In every state of every
    execution the units that have been claimed by workers are the ones
    submitted first, and the queue holds the others in the order of their
    submission. *)
Theorem X8_units_are_claimed_in_submission_order (units : list task)
    (threadCount : nat) (printed : list output) (s : state) :
  reachable units threadCount printed s →
  ∃ claimed,
    numbered (take (submitted units (pc s)) units) = claimed ++ tasks s
    ∧ (ran s).*2 ++ held (workers s) ≡ₚ claimed.
Proof.
  intros Hr. pose proof (reachable_inv _ _ _ _ Hr) as Hinv.
  destruct Hr as [schedule Hrun].
  destruct (run_fifo units schedule _ s (pool_created_fifo _ _ _) Hrun) as [claimed Hq].
  exists claimed. split; [done|].
  pose proof (inv_accounted _ _ Hinv) as Hacc. rewrite Hq, app_assoc in Hacc.
  by apply Permutation_app_inv_r in Hacc.
Qed.

Lemma X8_units_are_claimed_in_submission_order_witness :
  ∃ claimed,
    numbered (take (submitted [lone_unit] (pc unit_claimed)) [lone_unit])
    = claimed ++ tasks unit_claimed
    ∧ (ran unit_claimed).*2 ++ held (workers unit_claimed) ≡ₚ claimed.
Proof.
  apply (X8_units_are_claimed_in_submission_order [lone_unit] 1 [OutScanStarted] unit_claimed).
  exists claim_schedule. vm_compute. reflexivity.
Defined.

Lemma step_in_order units a s s' w :
  workers s = [w] →
  in_order units s → step units a s = Some s' →
  in_order units s' ∧ ∃ w', workers s' = [w'].
Proof.
  unfold in_order. intros Hws Hq Hstep. rewrite Hws in Hq.
  destruct a as [pick|i]; simpl in Hstep.
  - unfold main_step in Hstep.
    destruct (pc s) as [next|next| | | | |j|] eqn:Hpc; st_simpl.
    + destruct (units !! next) as [t|] eqn:Hunit.
      * destruct (mutex s); simplify_eq. st_simpl. rewrite Hws.
        pose proof (lookup_lt_Some _ _ _ Hunit) as Hlt.
        split; [|by eexists]. rewrite (take_S_r _ _ t) by done.
        rewrite numbered_snoc, length_take_le by lia. by rewrite <- Hq, <- !app_assoc.
      * simplify_eq. st_simpl. rewrite Hws. apply lookup_ge_None in Hunit.
        split; [|by eexists]. rewrite Hq. by rewrite !take_ge by lia.
    + destruct (notify_one pick s) as [s1|] eqn:Hn; simplify_eq/=.
      apply notify_one_cases in Hn as [->|[Hw ->]]; st_simpl; rewrite Hws.
      * split; [done|by eexists].
      * rewrite Hws in Hw. destruct pick as [|pick]; simplify_eq/=.
        split; [done|by eexists].
    + simplify_eq. st_simpl. rewrite Hws. split; [done|by eexists].
    + simplify_eq. st_simpl. rewrite Hws. split; [done|by eexists].
    + simplify_eq. st_simpl. rewrite Hws. split; [done|by eexists].
    + simplify_eq. st_simpl. rewrite Hws. split; [|by eexists].
      rewrite <- Hq. by destruct w.
    + destruct (workers s !! j) as [[]|]; simplify_eq; st_simpl; rewrite Hws;
        (split; [done|by eexists]).
    + done.
  - pose proof (worker_step_pc _ _ _ Hstep) as Hpc. rewrite Hpc.
    unfold worker_step in Hstep. rewrite Hws in Hstep.
    destruct i as [|i]; [|done]. simpl in Hstep.
    destruct w as [| | | | |n t| |]; try done.
    + destruct (mutex s); simplify_eq. st_simpl. rewrite Hws. split; [done|by eexists].
    + destruct (stop s || negb (bool_decide (tasks s = []))); simplify_eq;
        st_simpl; rewrite Hws; (split; [done|by eexists]).
    + simplify_eq. st_simpl. rewrite Hws. split; [done|by eexists].
    + simplify_eq. st_simpl. rewrite Hws. split; [done|by eexists].
    + destruct (stop s && bool_decide (tasks s = [])).
      { simplify_eq. st_simpl. rewrite Hws. split; [done|by eexists]. }
      destruct (tasks s) as [|[n t] rest] eqn:Htasks; simplify_eq; st_simpl;
        rewrite Hws, ?Htasks; (split; [done|by eexists]).
    + destruct (ending t); simplify_eq; st_simpl; rewrite ?Hws;
        (split; [|by eexists]); rewrite <- Hq, fmap_app; simpl;
        by rewrite <- !app_assoc.
Qed.

Lemma run_in_order units schedule : ∀ s s' w,
  workers s = [w] →
  in_order units s → run units schedule s = Some s' → in_order units s'.
Proof.
  induction schedule as [|a schedule IH]; intros s s' w Hws Hinv Hrun; simpl in Hrun.
  - by simplify_eq.
  - destruct (step units a s) as [s1|] eqn:Hstep; [|done].
    destruct (step_in_order units a s s1 w Hws Hinv Hstep) as [Hinv1 [w1 Hws1]].
    by eapply IH.
Qed.

(** X9: a pool with one worker calls the units in the order of their
    submission: at any time the calls made so far, the unit the worker holds
    and the queue, in this order, are the units submitted so far; when
    [main] has returned the calls are all the units, in order. *)
Theorem X9_one_worker_runs_units_in_order (units : list task) (printed : list output)
    (s : state) :
  reachable units 1 printed s →
  (ran s).*2 ++ held (workers s) ++ tasks s
  = numbered (take (submitted units (pc s)) units)
  ∧ (pc s = MExit → (ran s).*2 = numbered units).
Proof.
  intros Hr.
  assert (Hord : in_order units s).
  { destruct Hr as [schedule Hrun].
    by eapply (run_in_order units schedule (pool_created 1 printed) s WLock). }
  split; [done|]. intros Hpc.
  destruct (pool_drained_at_exit units 1 printed s) as (_ & Hq & Hheld); try done.
  unfold in_order in Hord. rewrite Hq, Hheld, Hpc, !app_nil_r in Hord. simpl in Hord.
  by rewrite take_ge in Hord.
Qed.

Lemma X9_one_worker_runs_units_in_order_witness :
  (ran unit_claimed).*2 ++ held (workers unit_claimed) ++ tasks unit_claimed
  = numbered (take (submitted [lone_unit] (pc unit_claimed)) [lone_unit])
  ∧ (pc unit_claimed = MExit → (ran unit_claimed).*2 = numbered [lone_unit]).
Proof.
  apply (X9_one_worker_runs_units_in_order [lone_unit] [OutScanStarted] unit_claimed).
  exists claim_schedule. vm_compute. reflexivity.
Defined.

(** X10: in every execution of the program no worker reaches undefined
    behaviour.  A worker that is about to pop has [stop] set or a queue that
    is not empty, so that [tasks.front()] is only called on a queue with an
    element, and at most one worker is inside the section guarded by
    [queueMutex].  (The same holds for a pool with any tasks that return or
    throw.) *)
Theorem X10_workers_stay_defined (env : environment) (argv : list string)
    (units : list task) (s0 s : state) (schedule : list action) :
  main_startup env argv = Scanning units s0 →
  run units schedule s0 = Some s →
  (∀ i, workers s !! i ≠ Some WCrashed)
  ∧ (∀ i, workers s !! i = Some WCheck → stop s = false → tasks s ≠ [])
  ∧ (∀ i j wi wj, workers s !! i = Some wi → workers s !! j = Some wj →
       holds_mutex wi = true → holds_mutex wj = true → i = j).
Proof.
  intros Hstart Hrun.
  pose proof (main_units_well_behaved _ _ _ _ Hstart) as Hunits.
  apply main_startup_scanning in Hstart
    as (? & ? & ? & ? & ? & ? & _ & _ & _ & _ & _ & _ & ->).
  eapply run_lock_inv in Hrun; [|done|apply pool_created_lock_inv].
  destruct Hrun as [Hheld Hchk Halive _ _]. split_and!.
  - done.
  - intros i Hi Hstop. destruct (Hchk i Hi) as [Hs|Hq]; [congruence|done].
  - intros i j wi wj Hi Hj Hwi Hwj.
    pose proof (Hheld i wi Hi Hwi). pose proof (Hheld j wj Hj Hwj). congruence.
Qed.

Lemma X10_workers_stay_defined_witness :
  (∀ i, workers unit_claimed !! i ≠ Some WCrashed)
  ∧ (∀ i, workers unit_claimed !! i = Some WCheck →
       stop unit_claimed = false → tasks unit_claimed ≠ [])
  ∧ (∀ i j wi wj, workers unit_claimed !! i = Some wi → workers unit_claimed !! j = Some wj →
       holds_mutex wi = true → holds_mutex wj = true → i = j).
Proof.
  apply (X10_workers_stay_defined lone_infected command_line [lone_unit]
           (pool_created 1 [OutScanStarted]) unit_claimed claim_schedule).
  - vm_compute. reflexivity.
  - vm_compute. reflexivity.
Defined.

(** X11: a worker returns from [workerThread] only after the destructor has
    set [stop] and only when the queue is empty; no unit is submitted
    afterwards, so the queue is empty in every state in which some worker has
    returned. *)
Theorem X11_workers_return_only_after_drain (units : list task) (threadCount : nat)
    (printed : list output) (s : state) (i : nat) :
  reachable units threadCount printed s →
  workers s !! i = Some WExited →
  stop s = true ∧ tasks s = [] ∧ shutting_down (pc s)
  ∧ submitted units (pc s) = length units.
Proof.
  intros Hr Hi. apply reachable_inv in Hr. destruct Hr as [_ _ _ Hstop Hex _].
  destruct (Hex i Hi) as [Hs Hq]. specialize (Hstop Hs).
  split_and!; try done. by destruct (pc s).
Qed.

Lemma X11_workers_return_only_after_drain_witness :
  let s := {| pc := MExit; tasks := []; stop := true; mutex := None;
              workers := [WExited];
              out := [OutScanStarted; OutScanCompleted; OutInfected "a.out"];
              ran := [(0, (0, lone_unit))] |} in
  stop s = true ∧ tasks s = [] ∧ shutting_down (pc s)
  ∧ submitted [lone_unit] (pc s) = length [lone_unit].
Proof.
  apply (X11_workers_return_only_after_drain [lone_unit] 1 [OutScanStarted] _ 0).
  - exists (main_runs_ahead ++ worker_catches_up). vm_compute. reflexivity.
  - reflexivity.
Defined.

Lemma run_without_workers units schedule : ∀ s s',
  workers s = [] → run units schedule s = Some s' →
  workers s' = [] ∧ ran s' = ran s.
Proof.
  induction schedule as [|a schedule IH]; intros s s' Hws Hrun; simpl in Hrun.
  - by simplify_eq.
  - destruct (step units a s) as [s1|] eqn:Hstep; [|done].
    assert (workers s1 = [] ∧ ran s1 = ran s) as [Hws1 Hran1].
    { destruct a as [pick|i]; simpl in Hstep.
      - unfold main_step in Hstep.
        destruct (pc s) as [next|next| | | | |j|]; st_simpl.
        + destruct (units !! next); [destruct (mutex s)|]; by simplify_eq.
        + destruct (notify_one pick s) as [s2|] eqn:Hn; simplify_eq/=.
          apply notify_one_cases in Hn as [->|[Hw ->]]; [done|].
          by rewrite Hws in Hw.
        + by simplify_eq.
        + by simplify_eq.
        + by simplify_eq.
        + simplify_eq. st_simpl. by rewrite Hws.
        + destruct (workers s !! j) as [[]|]; by simplify_eq.
        + done.
      - unfold worker_step in Hstep. by rewrite Hws in Hstep. }
    destruct (IH s1 s' Hws1 Hrun) as [? ?]. split; [done|congruence].
Qed.

(** X12: a pool created with no worker (the value 0 is a possible result of
    [hardware_concurrency()]) never calls a task; the destructor has nobody
    to join, so [main] can return, and then every unit is still in the
    queue. *)
Theorem X12_no_worker_nothing_runs (units : list task) (printed : list output) :
  (∀ schedule s, run units schedule (pool_created 0 printed) = Some s → ran s = [])
  ∧ (∀ schedule s, run units schedule (pool_created 0 printed) = Some s →
       pc s = MExit → tasks s = numbered units)
  ∧ ∃ schedule s, run units schedule (pool_created 0 printed) = Some s ∧ pc s = MExit.
Proof.
  split_and!.
  - intros schedule s Hrun. by destruct (run_without_workers units schedule (pool_created 0 printed) s eq_refl Hrun).
  - intros schedule s Hrun Hpc.
    destruct (run_without_workers units schedule (pool_created 0 printed) s eq_refl Hrun)
      as [Hws Hran].
    destruct (run_fifo units schedule _ s (pool_created_fifo _ _ _) Hrun) as [claimed Hq].
    pose proof (run_inv units schedule _ s (pool_created_inv _ _ _) Hrun) as Hinv.
    pose proof (inv_accounted _ _ Hinv) as Hacc.
    rewrite Hq, Hws, Hran, Hpc in *. simpl in *.
    apply (Permutation_app_inv_r (tasks s) [] claimed) in Hacc.
    apply Permutation_nil_l in Hacc. subst claimed.
    rewrite take_ge in Hq by done. done.
  - destruct (main_submits_all units (length units) 0 (pool_created 0 printed))
      as (s1 & Hrun1 & Hpc1 & _ & Hws1 & _); try done.
    destruct (main_starts_shutdown units s1 Hpc1) as (s2 & Hrun2 & Hpc2 & _ & _ & Hws2).
    destruct (main_joins units 0 0 s2) as (s3 & Hrun3 & Hpc3); try done.
    { by rewrite Hws2, Hws1. }
    { rewrite Hws2, Hws1. simpl. lia. }
    eexists _, s3. split; [|done].
    eapply run_app_Some; [|exact Hrun3]. eapply run_app_Some; done.
Qed.

(** X13: with at least one hardware thread there is, for every start of
    the program, an execution in which the destructor returns and [main]
    with it; every unit has then been called exactly once. *)
Theorem X13_the_program_can_finish (env : environment) (argv : list string)
    (units : list task) (s0 : state) :
  main_startup env argv = Scanning units s0 →
  1 ≤ hardware_concurrency env →
  ∃ schedule s,
    run units schedule s0 = Some s ∧ pc s = MExit ∧ (ran s).*2 ≡ₚ numbered units.
Proof.
  intros Hstart Hn.
  pose proof (main_units_well_behaved _ _ _ _ Hstart) as Hunits.
  apply main_startup_scanning in Hstart
    as (? & ? & ? & ? & ? & ? & _ & _ & _ & _ & _ & _ & ->).
  destruct (shutdown_can_return units (hardware_concurrency env) [OutScanStarted] Hn Hunits)
    as (schedule & s & Hrun & Hpc).
  exists schedule, s. split_and!; try done.
  destruct (pool_drained_at_exit units (hardware_concurrency env) [OutScanStarted] s)
    as (Hp & _ & _); try done. by exists schedule.
Qed.

Lemma X13_the_program_can_finish_witness :
  ∃ schedule s,
    run [lone_unit] schedule (pool_created 1 [OutScanStarted]) = Some s
    ∧ pc s = MExit ∧ (ran s).*2 ≡ₚ numbered [lone_unit].
Proof.
  apply (X13_the_program_can_finish lone_infected command_line).
  - vm_compute. reflexivity.
  - simpl. lia.
Defined.

(** One worker empties the queue while [stop] is what it is. *)
Lemma worker_drains_queue units i q : ∀ s,
  Forall well_behaved units →
  tasks s = q → mutex s = None →
  workers s !! i = Some WLock → lock_inv s →
  ∃ s', run units (replicate (4 * length q) (Worker i)) s = Some s'
        ∧ tasks s' = [] ∧ stop s' = stop s ∧ mutex s' = None
        ∧ pc s' = pc s ∧ workers s' = workers s.
Proof.
  induction q as [|[n t] q IH]; intros s Hunits Hq Hm Hw Hinv.
  - exists s. by split_and!.
  - assert (Hi : i < length (workers s)) by (by eapply lookup_lt_Some).
    assert (Hgood : well_behaved t).
    { apply (lock_queued s Hinv n t). rewrite Hq. apply list_elem_of_here. }
    replace (4 * length ((n, t) :: q)) with (4 + 4 * length q) by (simpl; lia).
    rewrite replicate_add.
    assert (Hfour : ∃ s1, run units (replicate 4 (Worker i)) s = Some s1
                      ∧ tasks s1 = q ∧ stop s1 = stop s ∧ mutex s1 = None
                      ∧ pc s1 = pc s ∧ workers s1 = workers s).
    { simpl. unfold worker_step at 1. rewrite Hw, Hm.
      unfold worker_step at 1. st_simpl. rewrite list_lookup_insert_eq by done.
      rewrite Hq, orb_true_r.
      unfold worker_step at 1. st_simpl.
      rewrite list_lookup_insert_eq by (by rewrite length_insert).
      rewrite Hq, andb_false_r.
      unfold worker_step at 1. st_simpl.
      rewrite list_lookup_insert_eq by (by rewrite !length_insert).
      unfold well_behaved in Hgood.
      destruct (ending t); try done; eexists; (split; [done|]); st_simpl;
        rewrite !list_insert_insert_eq; by rewrite list_insert_id. }
    destruct Hfour as (s1 & Hrun1 & Hq1 & Hstop1 & Hm1 & Hpc1 & Hws1).
    destruct (IH s1) as (s' & Hrun & ? & ? & ? & ? & ?); try done.
    { by rewrite Hws1. }
    { by eapply (run_lock_inv units). }
    exists s'. split_and!; try done; try congruence.
    eapply run_app_Some; done.
Qed.

Lemma main_shutdown_steps units s :
  pc s = MSubmit (length units) →
  run units (replicate 5 (Main 0)) s
  = Some {| pc := MJoin 0; tasks := tasks s; stop := true; mutex := mutex s;
            workers := wake <$> workers s; out := out s ++ [OutScanCompleted];
            ran := ran s |}.
Proof.
  intros Hpc. simpl. unfold main_step at 1. rewrite Hpc.
  rewrite (lookup_ge_None_2 units (length units)) by done. simpl. done.
Qed.

Lemma held_idle ws :
  (∀ i w, ws !! i = Some w → in_flight w = []) → held ws = [].
Proof.
  unfold held. induction ws as [|w ws IH]; intros H; [done|].
  rewrite bind_cons, (H 0 w eq_refl). apply IH. intros i w' Hi. by apply (H (S i)).
Qed.

(** X14: the destructor sets [stop] and notifies without holding
    [queueMutex], so its notification can come between the test of the wait
    predicate and the moment the worker blocks.  For every list of tasks that
    return or throw there is an execution in which all units have been
    called, the destructor has called [notify_all] and waits in [join], and
    worker 0 then blocks on the condition variable: the main thread cannot
    move, and no notification is left in the program to wake the worker. *)
Theorem X14_notification_can_be_missed (units : list task) (threadCount : nat)
    (printed : list output) :
  1 ≤ threadCount →
  Forall well_behaved units →
  ∃ schedule s,
    run units schedule (pool_created threadCount printed) = Some s
    ∧ pc s = MJoin 0 ∧ stop s = true ∧ tasks s = []
    ∧ (ran s).*2 ≡ₚ numbered units
    ∧ workers s !! 0 = Some WBlocked
    ∧ ∀ pick, main_step units pick s = None.
Proof.
  intros Hn Hunits.
  set (s0 := pool_created threadCount printed).
  assert (Hw0 : workers s0 !! 0 = Some WLock).
  { simpl. apply lookup_replicate_2. lia. }
  assert (Hnb : existsb is_blocked (workers s0) = false).
  { simpl. clear. induction threadCount; [done|]. done. }
  (* the main thread submits every unit *)
  destruct (main_submits_all units (length units) 0 s0)
    as (s1 & Hrun1 & Hpc1 & Hm1 & Hws1 & Hst1); try done.
  (* worker 0 calls them all, finds the queue empty and is about to block *)
  destruct (worker_drains_queue units 0 (tasks s1) s1)
    as (s2 & Hrun2 & Hq2 & Hst2 & Hm2 & Hpc2 & Hws2); try done.
  { by rewrite Hws1. }
  { eapply run_lock_inv; [done| |exact Hrun1]. apply pool_created_lock_inv. }
  assert (Hi : 0 < length (workers s2)).
  { rewrite Hws2, Hws1. simpl. rewrite length_replicate. lia. }
  set (s3 := set_worker 0 WSleep (set_worker 0 WWait (set_mutex (Some 0) s2))).
  assert (Hrun3 : run units [Worker 0; Worker 0] s2 = Some s3).
  { simpl. unfold worker_step at 1. rewrite Hws2, Hws1, Hw0, Hm2.
    unfold worker_step at 1. st_simpl.
    rewrite list_lookup_insert_eq by done.
    rewrite Hq2, Hst2, Hst1. simpl. done. }
  (* the destructor sets stop and notifies: nobody is blocked yet *)
  pose proof (main_shutdown_steps units s3) as Hrun4.
  set (s4 := {| pc := MJoin 0; tasks := tasks s3 |}) in Hrun4.
  specialize (Hrun4 ltac:(unfold s3; st_simpl; congruence)).
  assert (Hw4 : workers s4 !! 0 = Some WSleep).
  { unfold s4, s3. st_simpl. rewrite list_lookup_fmap.
    by rewrite list_lookup_insert_eq by (by rewrite length_insert). }
  (* the worker blocks *)
  set (s5 := set_worker 0 WBlocked (set_mutex None s4)).
  assert (Hrun5 : run units [Worker 0] s4 = Some s5).
  { simpl. unfold worker_step. by rewrite Hw4. }
  assert (Hrun : run units (replicate (2 * length units) (Main 0)
                            ++ replicate (4 * length (tasks s1)) (Worker 0)
                            ++ [Worker 0; Worker 0] ++ replicate 5 (Main 0) ++ [Worker 0]) s0
                 = Some s5).
  { eapply run_app_Some; [exact Hrun1|]. eapply run_app_Some; [exact Hrun2|].
    eapply run_app_Some; [exact Hrun3|]. eapply run_app_Some; [exact Hrun4|]. done. }
  assert (Hw5 : workers s5 !! 0 = Some WBlocked).
  { unfold s5. st_simpl. apply list_lookup_insert_eq. by eapply lookup_lt_Some. }
  assert (Hheld : held (workers s5) = []).
  { apply held_idle. intros i w. unfold s5, s4, s3. st_simpl.
    rewrite Hws2, Hws1. simpl.
    intros [(_ & <- & _)|[_ Hw]]%list_lookup_insert_Some; [done|].
    rewrite list_lookup_fmap in Hw.
    destruct (_ !! i) as [w'|] eqn:Hw'; [|done]. simpl in Hw. simplify_eq.
    apply list_lookup_insert_Some in Hw' as [(_ & <- & _)|[_ Hw']]; [done|].
    apply list_lookup_insert_Some in Hw' as [(_ & <- & _)|[_ Hw']]; [done|].
    apply lookup_replicate in Hw' as [-> _]. done. }
  eexists _, s5. split; [exact Hrun|]. split_and!; try done.
  - pose proof (run_inv units _ _ _ (pool_created_inv units threadCount printed) Hrun)
      as Hinv.
    pose proof (inv_accounted _ _ Hinv) as Hacc.
    rewrite Hheld in Hacc. unfold s5, s4, s3 in Hacc. st_simpl.
    rewrite Hq2 in Hacc. simpl in Hacc.
    rewrite !app_nil_r, take_ge in Hacc by done. done.
  - intros pick. unfold main_step.
    assert (pc s5 = MJoin 0) as -> by done. cbv beta iota. by rewrite Hw5.
Qed.

Lemma X14_notification_can_be_missed_witness :
  ∃ schedule s,
    run [lone_unit] schedule (pool_created 1 [OutScanStarted]) = Some s
    ∧ pc s = MJoin 0 ∧ stop s = true ∧ tasks s = []
    ∧ (ran s).*2 ≡ₚ numbered [lone_unit]
    ∧ workers s !! 0 = Some WBlocked
    ∧ ∀ pick, main_step [lone_unit] pick s = None.
Proof.
  apply (X14_notification_can_be_missed [lone_unit] 1 [OutScanStarted]).
  - lia.
  - constructor; [|constructor]. apply scan_file_well_behaved.
Defined.

(** * Further properties: the whole program *)

Lemma scan_units_writes (env : environment) signature (files : list string) :
  ((λ path, scan_file (file_at env path) signature path) <$> files) ≫= writes
  = OutInfected <$> filter (λ path, reports (file_at env path) signature = true) files.
Proof.
  induction files as [|path files IH]; [done|].
  rewrite fmap_cons, bind_cons, IH, filter_cons, scan_file_reports. simpl.
  destruct (reports (file_at env path) signature) eqn:Hrep.
  - by rewrite decide_True.
  - by rewrite decide_False.
Qed.

Lemma numbered_lookup units n t : (n, t) ∈ numbered units → units !! n = Some t.
Proof.
  unfold numbered. intros H.
  apply list_elem_of_lookup in H as [k Hk].
  rewrite list_lookup_imap in Hk.
  destruct (units !! k) as [t'|] eqn:Hu; simpl in Hk; [|done].
  by simplify_eq.
Qed.

(** X15: every output statement that a call made by a worker executes is
    the infected line of the file the unit was submitted for, a file of the
    traversal that is classified as ELF and in which the matcher finds the
    signature.  This holds for every call made so far, at every moment of
    every execution; in particular the [Error scanning] statement of the
    handler is never executed. *)
Theorem X15_every_report_is_justified (env : environment)
    (argv0 root_dir sig_file : string) (signature : list byte) (files : list string)
    (units : list task) (s0 s : state) (schedule : list action)
    (i n : nat) (t : task) (line : output) :
  main_startup env [argv0; root_dir; sig_file] = Scanning units s0 →
  load_signature (signature_at env sig_file) sig_file = Ok signature →
  regular_files_under env root_dir = Ok files →
  run units schedule s0 = Some s →
  (i, (n, t)) ∈ ran s →
  line ∈ writes t →
  ∃ path, files !! n = Some path
          ∧ t = scan_file (file_at env path) signature path
          ∧ line = OutInfected path
          ∧ reports (file_at env path) signature = true.
Proof.
  intros Hstart Hload Hfiles Hrun Hran Hline.
  apply main_startup_scanning in Hstart
    as (? & ? & ? & sig' & fault & files' & [= <- <- <-] & Hsrc & Hbr & _ & Hfiles'
        & -> & ->).
  assert (sig' = signature) as ->.
  { assert (Hl : load_signature (signature_at env sig_file) sig_file = Ok sig')
      by (apply load_signature_Ok; eauto). congruence. }
  assert (files' = files) as -> by congruence.
  set (units := (λ path, scan_file (file_at env path) signature path) <$> files) in *.
  pose proof (run_inv units schedule _ s (pool_created_inv _ _ _) Hrun) as Hinv.
  assert (Hunit : units !! n = Some t).
  { assert (Hin : (n, t) ∈ numbered (take (submitted units (pc s)) units)).
    { rewrite <- (inv_accounted _ _ Hinv). apply elem_of_app. left.
      apply list_elem_of_fmap. by exists (i, (n, t)). }
    apply numbered_lookup in Hin. by apply lookup_take_Some in Hin as [? _]. }
  unfold units in Hunit. rewrite list_lookup_fmap in Hunit.
  destruct (files !! n) as [path|] eqn:Hpath; simpl in Hunit; [|done].
  simplify_eq. exists path.
  rewrite scan_file_reports in Hline. simpl in Hline.
  destruct (reports (file_at env path) signature) eqn:Hrep.
  - apply list_elem_of_singleton in Hline. done.
  - by apply elem_of_nil in Hline.
Qed.

Lemma X15_every_report_is_justified_witness :
  ∃ path, ["a.out"%string] !! 0 = Some path
          ∧ lone_unit = scan_file (file_at lone_infected path) SIGNATURE path
          ∧ OutInfected "a.out" = OutInfected path
          ∧ reports (file_at lone_infected path) SIGNATURE = true.
Proof.
  apply (X15_every_report_is_justified lone_infected "find_sig" "root" "sig.sig"
           SIGNATURE ["a.out"%string] [lone_unit] (pool_created 1 [OutScanStarted])
           {| pc := MExit; tasks := []; stop := true; mutex := None;
              workers := [WExited];
              out := [OutScanStarted; OutScanCompleted; OutInfected "a.out"];
              ran := [(0, (0, lone_unit))] |}
           (main_runs_ahead ++ worker_catches_up) 0 0 lone_unit (OutInfected "a.out")).
  - vm_compute. reflexivity.
  - reflexivity.
  - reflexivity.
  - vm_compute. reflexivity.
  - simpl. apply list_elem_of_here.
  - vm_compute. apply list_elem_of_here.
Defined.

(** X16: when the program has run to the end on a machine with at least one
    hardware thread, the output statements executed by the calls of the
    workers are, in some order, one infected line for every file of the
    traversal that is classified as ELF and in which the matcher finds the
    signature: no such file is missed, none is reported twice, and nothing
    else is reported. *)
Theorem X16_infected_files_reported_once (env : environment)
    (argv0 root_dir sig_file : string) (signature : list byte) (files : list string)
    (units : list task) (s0 s : state) (schedule : list action) :
  main_startup env [argv0; root_dir; sig_file] = Scanning units s0 →
  load_signature (signature_at env sig_file) sig_file = Ok signature →
  regular_files_under env root_dir = Ok files →
  1 ≤ hardware_concurrency env →
  run units schedule s0 = Some s →
  pc s = MExit →
  (ran s).*2.*2 ≫= writes
  ≡ₚ OutInfected <$> filter (λ path, reports (file_at env path) signature = true) files.
Proof.
  intros Hstart Hload Hfiles Hn Hrun Hpc.
  apply main_startup_scanning in Hstart
    as (? & ? & ? & sig' & fault & files' & [= <- <- <-] & Hsrc & Hbr & _ & Hfiles'
        & -> & ->).
  assert (sig' = signature) as ->.
  { assert (Hl : load_signature (signature_at env sig_file) sig_file = Ok sig')
      by (apply load_signature_Ok; eauto). congruence. }
  assert (files' = files) as -> by congruence.
  destruct (pool_drained_at_exit _ (hardware_concurrency env) [OutScanStarted] s Hn
              (ex_intro _ schedule Hrun) Hpc) as (Hran & _ & _).
  by rewrite Hran, numbered_tasks, scan_units_writes.
Qed.

Lemma X16_infected_files_reported_once_witness :
  [(0, lone_unit)].*2 ≫= writes
  ≡ₚ OutInfected <$> filter (λ path, reports (file_at lone_infected path) SIGNATURE = true)
                            ["a.out"%string].
Proof.
  apply (X16_infected_files_reported_once lone_infected "find_sig" "root" "sig.sig"
           SIGNATURE ["a.out"%string] [lone_unit] (pool_created 1 [OutScanStarted])
           {| pc := MExit; tasks := []; stop := true; mutex := None;
              workers := [WExited];
              out := [OutScanStarted; OutScanCompleted; OutInfected "a.out"];
              ran := [(0, (0, lone_unit))] |}
           (main_runs_ahead ++ worker_catches_up)).
  - vm_compute. reflexivity.
  - reflexivity.
  - reflexivity.
  - simpl. lia.
  - vm_compute. reflexivity.
  - reflexivity.
Defined.

(** * Further properties: the programs of the test suite *)

Lemma detected_if_occurs data S :
  S ≠ [] → occurs S data →
  fst (containsSignatureBuffered (Readable data None) S) = Ok true.
Proof.
  intros Hne Hocc. rewrite containsSignatureBuffered_readable by done.
  f_equal. apply found_iff; [done|]. by apply occurs_app_r.
Qed.

Lemma occurs_elem S data b : b ∈ S → occurs S data → b ∈ data.
Proof.
  intros Hb [k Hk]. unfold occurs_at in Hk. rewrite <- Hk in Hb.
  apply (subseteq_drop k data). by apply (subseteq_take (length S)).
Qed.

Lemma isELFFile_magic rest : isELFFile (Readable (ELF_MAGIC ++ rest) None) = true.
Proof. reflexivity. Qed.

Lemma scan_result_detected rest path :
  occurs SIGNATURE (ELF_MAGIC ++ rest) →
  scan_result (ELF_MAGIC ++ rest) path = [OutInfected path].
Proof.
  intros Hocc. unfold scan_result. rewrite scan_file_reports.
  unfold reports, steady. cbn [at_classify at_match writes].
  rewrite isELFFile_magic, detected_if_occurs by done. done.
Qed.

Lemma scan_result_clean rest path :
  ¬ occurs SIGNATURE (ELF_MAGIC ++ rest) →
  scan_result (ELF_MAGIC ++ rest) path = [].
Proof.
  intros Hocc. unfold scan_result. rewrite scan_file_reports.
  unfold reports, steady. cbn [at_classify at_match writes].
  rewrite isELFFile_magic. cbn [andb].
  destruct (containsSignatureBuffered_returns (Readable (ELF_MAGIC ++ rest) None) SIGNATURE)
    as [b Hb].
  rewrite Hb. destruct b; [|done].
  exfalso. apply Hocc.
  by apply (containsSignatureBuffered_exact (ELF_MAGIC ++ rest) None ("c"%byte)
              ["r"; "y"; "p"; "t"; "y"]%byte ltac:(done)).
Qed.

(** X17: the generators of infected test files build files that the
    scanner reports, for every amount of padding: [make_elf_with] with any
    content in which the signature lies, whatever the padding in front of it,
    and the files of the first test program with the signature in the middle,
    at the start and at the end. *)
Theorem X17_generated_infected_files_are_reported (content : list byte)
    (padding : nat) (path : string) :
  occurs SIGNATURE content →
  scan_result (make_elf_with content padding) path = [OutInfected path]
  ∧ scan_result make_infected_elf path = [OutInfected path]
  ∧ scan_result make_elf_with_signature_at_start path = [OutInfected path]
  ∧ scan_result make_elf_with_signature_at_end path = [OutInfected path].
Proof.
  intros Hocc. split_and!.
  - apply scan_result_detected. apply occurs_app_r. by apply occurs_app_r.
  - apply (scan_result_detected (replicate 200 x00 ++ SIGNATURE ++ replicate 300 x00)).
    apply occurs_app_r, occurs_app_r, occurs_app_l; [done|]. by exists 0.
  - apply (scan_result_detected (SIGNATURE ++ replicate 502 x00)).
    apply occurs_app_r, occurs_app_l; [done|]. by exists 0.
  - apply (scan_result_detected (replicate 502 x00 ++ SIGNATURE)).
    apply occurs_app_r, occurs_app_r. by exists 0.
Qed.

Lemma X17_generated_infected_files_are_reported_witness :
  scan_result (make_elf_with SIGNATURE 200) "infected_middle" = [OutInfected "infected_middle"]
  ∧ scan_result make_infected_elf "infected_middle" = [OutInfected "infected_middle"]
  ∧ scan_result make_elf_with_signature_at_start "infected_middle"
    = [OutInfected "infected_middle"]
  ∧ scan_result make_elf_with_signature_at_end "infected_middle"
    = [OutInfected "infected_middle"].
Proof.
  apply (X17_generated_infected_files_are_reported SIGNATURE 200 "infected_middle").
  exists 0. reflexivity.
Defined.

(** X18: for every [buffer_size] of at least 6 the cross-boundary generator
    builds an ELF file of [2 * buffer_size] bytes with the signature at
    offset [buffer_size - 2], so that it lies across offset [buffer_size],
    and the scanner reports the file. *)
Theorem X18_cross_boundary_file_is_reported (buffer_size : nat) (path : string) :
  6 ≤ buffer_size →
  let data := make_elf_with_cross_boundary_signature buffer_size in
  length data = 2 * buffer_size
  ∧ occurs_at SIGNATURE data (buffer_size - 2)
  ∧ buffer_size - 2 < buffer_size < buffer_size - 2 + length SIGNATURE
  ∧ scan_result data path = [OutInfected path].
Proof.
  intros Hbs data.
  assert (Hdata : data = ELF_MAGIC ++ (replicate (buffer_size - 6) ("A"%byte) ++ SIGNATURE
                                       ++ replicate (buffer_size - 4) ("B"%byte))).
  { unfold data, make_elf_with_cross_boundary_signature, resize.
    rewrite (take_ge ELF_MAGIC) by (simpl; lia).
    rewrite take_ge by (rewrite !length_app, length_replicate; simpl; lia).
    rewrite !length_app, length_replicate. simpl length.
    replace (buffer_size - 2 - 4) with (buffer_size - 6) by lia.
    replace (buffer_size * 2 - (4 + (buffer_size - 6) + 6)) with (buffer_size - 4) by lia.
    by rewrite <- !app_assoc. }
  assert (Hat : occurs_at SIGNATURE data (buffer_size - 2)).
  { rewrite Hdata. unfold occurs_at.
    rewrite app_assoc, drop_app_length'
      by (rewrite length_app, length_replicate; simpl; lia).
    by rewrite take_app_length. }
  split_and!.
  - rewrite Hdata, !length_app, !length_replicate. simpl. lia.
  - done.
  - lia.
  - simpl. lia.
  - rewrite Hdata. apply scan_result_detected. rewrite <- Hdata. by eexists.
Qed.

Lemma X18_cross_boundary_file_is_reported_witness :
  let data := make_elf_with_cross_boundary_signature 4096 in
  length data = 2 * 4096
  ∧ occurs_at SIGNATURE data (4096 - 2)
  ∧ 4096 - 2 < 4096 < 4096 - 2 + length SIGNATURE
  ∧ scan_result data "inf4" = [OutInfected "inf4"].
Proof.
  apply (X18_cross_boundary_file_is_reported 4096 "inf4"). lia.
Defined.

(** X19: a generated file is not reported when some byte of the signature
    is missing from its content: for every padding, [make_elf_with] with a
    content that has no byte ['p'], such as the clean file (no content) and
    the file with the partial signature [cry]; likewise the clean and the
    partial file of the first test program.  A file that does not start with
    the ELF magic, such as [make_non_elf] or the signature alone, is not
    reported either. *)
Theorem X19_generated_clean_files_are_not_reported (content : list byte)
    (padding : nat) (path : string) :
  "p"%byte ∉ content →
  scan_result (make_elf_with content padding) path = []
  ∧ scan_result make_clean_elf path = []
  ∧ scan_result make_elf_with_partial_signature path = []
  ∧ scan_result make_non_elf path = []
  ∧ scan_result SIGNATURE path = [].
Proof.
  intros Hp.
  assert (Hno : ∀ rest, "p"%byte ∉ ELF_MAGIC ++ rest → scan_result (ELF_MAGIC ++ rest) path = []).
  { intros rest Hrest. apply scan_result_clean. intros Hocc. apply Hrest.
    apply (occurs_elem SIGNATURE); [|done]. unfold SIGNATURE.
    do 3 apply list_elem_of_further. apply list_elem_of_here. }
  assert (Hzeros : ∀ n, "p"%byte ∉ replicate n x00).
  { intros n [? _]%elem_of_replicate. done. }
  assert (Hmagic : "p"%byte ∉ ELF_MAGIC).
  { unfold ELF_MAGIC. rewrite !not_elem_of_cons. split_and!; try done. apply not_elem_of_nil. }
  split_and!.
  - apply Hno. rewrite !not_elem_of_app. split_and!; [|apply Hzeros|done].
    done.
  - apply (Hno (replicate 508 x00)). rewrite not_elem_of_app. split; [done|apply Hzeros].
  - apply (Hno (["c"; "r"; "y"]%byte ++ replicate 505 x00)).
    rewrite !not_elem_of_app. split_and!; [done| |apply Hzeros].
    rewrite !not_elem_of_cons. split_and!; try done. apply not_elem_of_nil.
  - reflexivity.
  - reflexivity.
Qed.

Lemma X19_generated_clean_files_are_not_reported_witness :
  scan_result (make_elf_with ["c"; "r"; "y"]%byte 200) "partial_signature" = []
  ∧ scan_result make_clean_elf "partial_signature" = []
  ∧ scan_result make_elf_with_partial_signature "partial_signature" = []
  ∧ scan_result make_non_elf "partial_signature" = []
  ∧ scan_result SIGNATURE "partial_signature" = [].
Proof.
  apply (X19_generated_clean_files_are_not_reported ["c"; "r"; "y"]%byte 200
           "partial_signature").
  rewrite !not_elem_of_cons. split_and!; try done. apply not_elem_of_nil.
Defined.

Lemma index_app_r needle pre line :
  String.index 0 needle line ≠ None → String.index 0 needle (pre +:+ line) ≠ None.
Proof.
  intros Hline. induction pre as [|c pre IH]; [done|].
  destruct needle as [|n needle].
  - by destruct line.
  - change (String.String c pre +:+ line) with (String.String c (pre +:+ line)).
    cbn [String.index].
    destruct (String.prefix _ _); [done|].
    by destruct (String.index 0 (String.String n needle) (pre +:+ line)).
Qed.

Lemma length_string_app (a b : string) :
  String.length (a +:+ b) = String.length a + String.length b.
Proof. induction a as [|c a IH]; [done|]. simpl. by f_equal. Qed.

Lemma length_escaped path : String.length path ≤ String.length (escaped path).
Proof.
  induction path as [|c path IH]; [done|].
  simpl. destruct (_ || _); simpl; lia.
Qed.

Lemma length_quoted path suffix :
  String.length path < String.length (quoted path +:+ suffix).
Proof.
  pose proof (length_escaped path) as Hle.
  rewrite length_string_app. unfold quoted.
  change (String.length (String.String ?c ?s)) with (S (String.length s)).
  rewrite length_string_app. lia.
Qed.

(** X20: the tests never read back the path of an infected file.  For
    every path, the line the scanner prints for it is recognised by the
    tests, and what they record is the text after [File ]: the path between
    double quotes, as the stream operator of [fs::path] writes it, followed
    by [ is infected!].  It starts with a double quote, is longer than the
    path and so differs from it. *)
Theorem X20_tests_record_quoted_path_with_suffix (path : string) :
  reported_entry (infected_line path) = Some (quoted path +:+ " is infected!")
  ∧ (∃ rest, quoted path +:+ " is infected!" = String.String double_quote rest)
  ∧ reported_entry (infected_line path) ≠ Some path.
Proof.
  assert (Hentry : reported_entry (infected_line path)
                   = Some (quoted path +:+ " is infected!")).
  { unfold reported_entry, string_find.
    destruct (String.index 0 "is infected!" (infected_line path)) eqn:Hfind.
    - reflexivity.
    - exfalso. revert Hfind. unfold infected_line.
      apply index_app_r, index_app_r. done. }
  split_and!.
  - done.
  - unfold quoted. cbn [String.append]. eauto.
  - rewrite Hentry. intros [= Heq].
    pose proof (length_quoted path " is infected!") as Hlen.
    rewrite Heq in Hlen. lia.
Qed.
